(** * memoize_async: a shallow embedding of [src/memoize.ts]

    The memoizer of [memoize.ts] wraps an asynchronous function [f] and keeps
    two JavaScript [Map]s in its closure: [cache] (settled results with an
    expiry date) and [queue] (for every key whose call of [f] is outstanding,
    the resolve/reject handlers of the calls that arrived meanwhile).

    JavaScript runs the code between two [await]s without interruption, so
    the embedding has one transition per such block:
    - [memoized]: lines 45-72, a call up to the point where it returns a
      settled promise, returns a pending one, or awaits [f];
    - [resume_fulfilled]: lines 73-93, the leader after [f] fulfilled;
    - [resume_rejected]: lines 94-104, the leader after [f] rejected;
    - [clear_cache] and [cache_size]: lines 108-109.
    The wrapped [f] is the environment: when and how each of its promises
    settles is an [Event] of the trace, and so is the time [new Date()]
    gives in a block. The expiry of an entry is computed as lines 79-80 do,
    with the algorithms of ECMA-262 for [getSeconds] and [setSeconds] over
    IEEE 754 numbers; the time zone of the host is a parameter ([Host]). *)

From Stdlib Require Import ZArith Ascii String List Lia.
From Stdlib Require Import DecimalString DecimalPos DecimalZ SpecFloat.
From stdpp Require Import gmap strings list fin_maps.
Import ListNotations.

Local Open Scope string_scope.
Local Open Scope Z_scope.

(** ** Argument values: [SimpleArgs] (line 4) *)

(** A JavaScript [number]. The finite numbers the development needs are the
    integers, printed in decimal by [Number::toString]; [NaN] and the two
    infinities are numbers too. *)
Inductive Number : Type :=
  | NaN
  | Infinity (negative : bool)
  | Finite (z : Z).

(** [string | number | boolean | undefined]. A string is a sequence of code
    units, here those below 256. *)
Inductive Value : Type :=
  | VString (s : string)
  | VNumber (n : Number)
  | VBoolean (b : bool)
  | VUndefined.

(** ** [JSON.stringify] on an array of such values (line 54) *)

Module JSON.

Definition quotation_mark : ascii := ascii_of_nat 34.
Definition reverse_solidus : ascii := ascii_of_nat 92.

Definition hex_digit (n : N) : ascii :=
  if (n <? 10)%N then ascii_of_N (48 + n) else ascii_of_N (87 + n).

(** [\uXXXX] for a control character, lower-case hexadecimal. *)
Definition unicode_escape (c : ascii) : string :=
  let n := N_of_ascii c in
  String reverse_solidus
    (String "u" (String "0" (String "0"
      (String (hex_digit (n / 16)) (String (hex_digit (n mod 16)) EmptyString))))).

Definition escape (c : ascii) : string :=
  String reverse_solidus (String c EmptyString).

(** QuoteJSONString, one code unit. *)
Definition quote_char (c : ascii) : string :=
  let n := N_of_ascii c in
  if (n =? 8)%N then escape "b"
  else if (n =? 9)%N then escape "t"
  else if (n =? 10)%N then escape "n"
  else if (n =? 12)%N then escape "f"
  else if (n =? 13)%N then escape "r"
  else if (n =? 34)%N then escape quotation_mark
  else if (n =? 92)%N then escape reverse_solidus
  else if (n <? 32)%N then unicode_escape c
  else String c EmptyString.

Fixpoint quote_chars (s : string) : string :=
  match s with
  | EmptyString => EmptyString
  | String c s' => quote_char c ++ quote_chars s'
  end.

Definition quote (s : string) : string :=
  String quotation_mark (quote_chars s ++ String quotation_mark EmptyString).

(** SerializeJSONProperty for a number: a number that is not finite is
    written [null]. *)
Definition number (n : Number) : string :=
  match n with
  | NaN => "null"
  | Infinity _ => "null"
  | Finite z => NilZero.string_of_int (Z.to_int z)
  end.

(** SerializeJSONArray writes [null] for an element that is [undefined]. *)
Definition element (v : Value) : string :=
  match v with
  | VString s => quote s
  | VNumber n => number n
  | VBoolean true => "true"
  | VBoolean false => "false"
  | VUndefined => "null"
  end.

Fixpoint elements (vs : list Value) : string :=
  match vs with
  | [] => EmptyString
  | [v] => element v
  | v :: vs' => element v ++ "," ++ elements vs'
  end.

Definition stringify (args : list Value) : string :=
  "[" ++ elements args ++ "]".

End JSON.

(** ** Reading back what [JSON.stringify] wrote *)

Module JSONRead.





End JSONRead.


(** ** A JavaScript [Map] with string keys, in insertion order *)

Module JsMap.
Section Ops.
Context {V : Type}.

Fixpoint get (m : list (string * V)) (k : string) : option V :=
  match m with
  | [] => None
  | (k', v) :: m' => if decide (k = k') then Some v else get m' k
  end.

(** [set] on a key that is present replaces the value where it is; a new
    key goes to the end. *)
Fixpoint set (m : list (string * V)) (k : string) (v : V) : list (string * V) :=
  match m with
  | [] => [(k, v)]
  | (k', v') :: m' =>
      if decide (k = k') then (k, v) :: m' else (k', v') :: set m' k v
  end.

Fixpoint delete (m : list (string * V)) (k : string) : list (string * V) :=
  match m with
  | [] => []
  | (k', v) :: m' => if decide (k = k') then m' else (k', v) :: delete m' k
  end.

Definition keys (m : list (string * V)) : list string := map fst m.

Definition size (m : list (string * V)) : nat := List.length m.

Definition clear (m : list (string * V)) : list (string * V) := [].

(** [m.keys().next().value]: [undefined] on an empty map. *)
Definition first_key (m : list (string * V)) : option string := head (keys m).

(** [m.delete(k)] where [k] may be [undefined], which is no key of a map
    whose keys are strings. *)
Definition delete_value (m : list (string * V)) (k : option string) : list (string * V) :=
  match k with
  | Some k => delete m k
  | None => m
  end.
End Ops.
End JsMap.

(** ** The memoizer *)

Definition CallId : Type := nat.

(** A time value: milliseconds since the epoch, as [new Date()] gives it. *)
Definition Time : Type := Z.

(** ** Numbers: IEEE 754 binary64, with the operations of [SpecFloat] *)

Module Num.

Definition prec : Z := 53.
Definition emax : Z := 1024.

(** The number nearest to an integer: the integer itself up to 2^53. *)
Definition of_Z (z : Z) : spec_float := binary_normalize prec emax z 0 false.

Definition add (x y : spec_float) : spec_float := SFadd prec emax x y.
Definition sub (x y : spec_float) : spec_float := SFsub prec emax x y.
Definition mul (x y : spec_float) : spec_float := SFmul prec emax x y.

Definition is_finite (x : spec_float) : bool :=
  match x with
  | S754_zero _ | S754_finite _ _ _ => true
  | S754_infinity _ | S754_nan => false
  end.

(** ToIntegerOrInfinity of a finite number: its fraction is dropped. *)
Definition truncate (x : spec_float) : Z :=
  match x with
  | S754_finite s m e =>
      let magnitude :=
        match e with
        | Z0 => Zpos m
        | Zpos _ => Zpos m * 2 ^ e
        | Zneg _ => Zpos m / 2 ^ (- e)
        end in
      if s then - magnitude else magnitude
  | _ => 0
  end.

(** The number of a whole [v] with [1 <= v < 2^53] and sign [s], in the form
    that has 53 binary digits. *)
Definition whole (s : bool) (v : Z) : spec_float :=
  S754_finite s (Z.to_pos (v * 2 ^ (52 - Z.log2 v))) (Z.log2 v - 52).

Definition signed (s : bool) (v : Z) : Z := if s then - v else v.

End Num.

(** ** Dates (ECMA-262, Date objects) *)

(** The one thing the host decides: LocalTZA(t, isUTC), the offset of local
    time from UTC in milliseconds, at the UTC time [t] when [isUTC] and at
    the local time [t] otherwise. *)
Class Host : Type := { LocalTZA : Time -> bool -> Z }.

(** A [Date]: its time value, or the Invalid Date, whose time value is NaN. *)
Inductive Date : Type :=
  | TimeValue (t : Time)
  | InvalidDate.

Module Date.
Section Host.
Context {host : Host}.

Definition msPerSecond : Z := 1000.
Definition msPerMinute : Z := 60000.
Definition msPerHour : Z := 3600000.
Definition msPerDay : Z := 86400000.

Definition Day (t : Time) : Z := t / msPerDay.
Definition HourFromTime (t : Time) : Z := (t / msPerHour) mod 24.
Definition MinFromTime (t : Time) : Z := (t / msPerMinute) mod 60.
Definition SecFromTime (t : Time) : Z := (t / msPerSecond) mod 60.
Definition msFromTime (t : Time) : Z := t mod msPerSecond.

Definition LocalTime (t : Time) : Time := t + LocalTZA t true.

(** UTC(t) of a local time value, NaN staying NaN. *)
Definition UTC (t : spec_float) : spec_float :=
  Num.sub t (Num.of_Z (LocalTZA (Num.truncate t) false)).

(** MakeTime: NaN unless [sec] is finite; the seconds lose their fraction,
    and the sum is taken with the arithmetic of numbers. *)
Definition MakeTime (hour min : Z) (sec : spec_float) (ms : Z) : spec_float :=
  if Num.is_finite sec then
    let h := Num.of_Z hour in
    let m := Num.of_Z min in
    let s := Num.of_Z (Num.truncate sec) in
    let milli := Num.of_Z ms in
    Num.add
      (Num.add
         (Num.add (Num.mul h (Num.of_Z msPerHour)) (Num.mul m (Num.of_Z msPerMinute)))
         (Num.mul s (Num.of_Z msPerSecond)))
      milli
  else S754_nan.

Definition MakeDate (day : Z) (time : spec_float) : spec_float :=
  if Num.is_finite time then
    let tv := Num.add (Num.mul (Num.of_Z day) (Num.of_Z msPerDay)) time in
    if Num.is_finite tv then tv else S754_nan
  else S754_nan.

(** TimeClip: no date further than 8.64e15 milliseconds from the epoch. *)
Definition TimeClip (time : spec_float) : Date :=
  if Num.is_finite time then
    if SFltb (Num.of_Z 8640000000000000) (SFabs time) then InvalidDate
    else TimeValue (Num.truncate time)
  else InvalidDate.

(** [date.getSeconds()] of the date with time value [t]. *)
Definition getSeconds (t : Time) : Z := SecFromTime (LocalTime t).

(** [date.setSeconds(sec)] on the date with time value [t]: the date it has
    afterwards. *)
Definition setSeconds (t : Time) (sec : spec_float) : Date :=
  let t := LocalTime t in
  let date := MakeDate (Day t) (MakeTime (HourFromTime t) (MinFromTime t) sec (msFromTime t)) in
  TimeClip (UTC date).

(** Lines 79-80: [expiry = new Date()] at time [now], then
    [expiry.setSeconds(expiry.getSeconds() + ttl)]. *)
Definition expires (now : Time) (ttl : spec_float) : Date :=
  setSeconds now (Num.add (Num.of_Z (getSeconds now)) ttl).

(** [date > new Date()] at time [now]; a comparison with NaN is false. *)
Definition after (date : Date) (now : Time) : bool :=
  match date with
  | TimeValue t => now <? t
  | InvalidDate => false
  end.

(** The date is not after [now]: an entry with this expiry is not served
    at [now]. *)
Definition expired (date : Date) (now : Time) : Prop :=
  match date with
  | TimeValue t => t <= now
  | InvalidDate => True
  end.

End Host.
End Date.

(** The [options] argument: [ttl], a number, and [size], a count of
    entries. *)
Record Options : Type := { ttl : spec_float; size : Z }.

(** What the memoizer reads of the wrapped function besides calling it:
    [f.length], its declared number of parameters. *)
Record Func : Type := { f_length : nat }.

(** The message of the [Error] of line 50. *)
Definition arity_message (given declared : nat) : string :=
  "Invalid number of arguments passed ("
    ++ NilZero.string_of_uint (Nat.to_uint given) ++ " != "
    ++ NilZero.string_of_uint (Nat.to_uint declared)
    ++ ") or used spread operator".

Section Memoizer.

(** [R]: the results of [f]; [E]: what a promise of [f] rejects with;
    [host]: the time zone of the host. *)
Context {R E : Type} {host : Host}.

(** What a promise is rejected with: an [Error] the memoizer made, or the
    value the promise of [f] was rejected with. *)
Inductive Reason : Type :=
  | Error (message : string)
  | Thrown (err : E).

Inductive Outcome : Type :=
  | Resolved (result : R)
  | Rejected (reason : Reason).

Definition InvalidArity (given declared : nat) : Reason :=
  Error (arity_message given declared).

Record Entry : Type := { value : R; expiry : Date }.

(** The closure of [memoize_async] (lines 41-43). A handler of [queue] is
    the resolve/reject pair of the promise returned to one call, named by
    that call. *)
Record Memoized : Type := {
  options : Options;
  f : Func;
  cache : list (string * Entry);
  queue : gmap string (list CallId)
}.

Definition maxSize (m : Memoized) : Z := size (options m).

Definition set_cache (m : Memoized) (c : list (string * Entry)) : Memoized :=
  {| options := options m; f := f m; cache := c; queue := queue m |}.

Definition set_queue (m : Memoized) (q : gmap string (list CallId)) : Memoized :=
  {| options := options m; f := f m; cache := cache m; queue := q |}.

(** A JavaScript function returns or throws. *)
Inductive Completion (A : Type) : Type :=
  | Normal (a : A)
  | Throw (reason : Reason).

(** Lines 37-43 and 107-110: the two maps are created empty and the
    memoized function is returned; [options] is not inspected. *)
Definition memoize_async (options : Options) (f : Func) : Completion Memoized :=
  Normal Memoized {| options := options; f := f; cache := []; queue := ∅ |}.

(** Line 108. *)
Definition cache_size (m : Memoized) : nat := JsMap.size (cache m).

(** Line 109. *)
Definition clear_cache (m : Memoized) : Memoized :=
  set_cache m (JsMap.clear (cache m)).

(** Lines 57-58: the value of the entry of [key] if [entry.expiry > new Date()]. *)
Definition cached (m : Memoized) (key : string) (now : Time) : option R :=
  match JsMap.get (cache m) key with
  | Some entry => if Date.after (expiry entry) now then Some (value entry) else None
  | None => None
  end.

(** How a call leaves lines 45-72. *)
Inductive Step : Type :=
  | Rejects (reason : Reason)   (* line 49: a rejected promise *)
  | Returns (v : R)             (* line 59: the cached value *)
  | Enqueues                    (* lines 64-66: a pending promise, its handlers pushed *)
  | Awaits (key : string).      (* lines 69-72: [f(...args)] called and awaited *)

Definition memoized (m : Memoized) (c : CallId) (args : list Value) (now : Time)
  : Memoized * Step :=
  if negb (f_length (f m) =? List.length args)%nat then
    (m, Rejects (InvalidArity (List.length args) (f_length (f m))))
  else
    let key := JSON.stringify args in
    match cached m key now with
    | Some v => (m, Returns v)
    | None =>
        match queue m !! key with
        | Some handlers => (set_queue m (<[key := (handlers ++ [c])%list]> (queue m)), Enqueues)
        | None => (set_queue m (<[key := []]> (queue m)), Awaits key)
        end
    end.

(** The four ways through lines 45-72. *)
Inductive memoized_cases (m : Memoized) (c : CallId) (args : list Value) (now : Time)
  : Memoized * Step -> Prop :=
  | case_arity :
      List.length args <> f_length (f m) ->
      memoized_cases m c args now
        (m, Rejects (InvalidArity (List.length args) (f_length (f m))))
  | case_hit v :
      List.length args = f_length (f m) ->
      cached m (JSON.stringify args) now = Some v ->
      memoized_cases m c args now (m, Returns v)
  | case_wait handlers :
      List.length args = f_length (f m) ->
      cached m (JSON.stringify args) now = None ->
      queue m !! JSON.stringify args = Some handlers ->
      memoized_cases m c args now
        (set_queue m (<[JSON.stringify args := (handlers ++ [c])%list]> (queue m)), Enqueues)
  | case_lead :
      List.length args = f_length (f m) ->
      cached m (JSON.stringify args) now = None ->
      queue m !! JSON.stringify args = None ->
      memoized_cases m c args now
        (set_queue m (<[JSON.stringify args := []]> (queue m)), Awaits (JSON.stringify args)).

(** Lines 74-82: evict the first key when the cache is full, then store. *)
Definition store (key : string) (result : R) (now : Time) (m : Memoized) : Memoized :=
  let kept :=
    if maxSize m <=? Z.of_nat (JsMap.size (cache m)) then
      let oldestKey := JsMap.first_key (cache m) in
      JsMap.delete_value (cache m) oldestKey
    else cache m in
  let expiry := Date.expires now (ttl (options m)) in
  set_cache m (JsMap.set kept key {| value := result; expiry := expiry |}).

(** Lines 85-86 and 96-97: [queue.get(key)], then [queue.delete(key)]. *)
Definition take_handlers (key : string) (m : Memoized) : option (list CallId) * Memoized :=
  (queue m !! key, set_queue m (delete key (queue m))).

(** ** The calls in progress *)

(** The memoizer together with what the JavaScript run time holds: the
    leaders suspended at line 72 with the [key] of their closure. The other
    fields record the history the statements below speak of: the latest
    time a block ran at, the number of calls made, the calls of [f] and the
    settlements of the promises returned by [memoized], in the order they
    happened, and, for each settlement, the memoizer as it was when the
    promise was settled. *)
Record World : Type := {
  memo : Memoized;
  clock : Time;
  calls : nat;
  leaders : list (CallId * string);
  invoked : list (list Value);
  settled : list (CallId * Outcome);
  seen : list (CallId * Memoized)
}.

Definition set_memo (w : World) (m : Memoized) : World :=
  {| memo := m; clock := clock w; calls := calls w; leaders := leaders w;
     invoked := invoked w; settled := settled w; seen := seen w |}.

(** A block runs at time [now]. *)
Definition tick (now : Time) (w : World) : World :=
  {| memo := memo w; clock := Z.max (clock w) now; calls := calls w;
     leaders := leaders w; invoked := invoked w; settled := settled w;
     seen := seen w |}.

(** The promise of call [c] settles: [resolve] or [reject] is called, or
    the call returns or throws. The memoizer is not touched; the state it
    is in at this moment is recorded beside the outcome. *)
Definition settle (c : CallId) (o : Outcome) (w : World) : World :=
  {| memo := memo w; clock := clock w; calls := calls w; leaders := leaders w;
     invoked := invoked w; settled := (settled w ++ [(c, o)])%list;
     seen := (seen w ++ [(c, memo w)])%list |}.

(** Lines 87-91 and 98-102: the loop over the handlers. *)
Definition settle_all (o : Outcome) (handlers : list CallId) (w : World) : World :=
  fold_left (fun w h => settle h o w) handlers w.

(** Lines 87 and 98: [if (handlers)]. *)
Definition settle_handlers (o : Outcome) (handlers : option (list CallId)) (w : World)
  : World :=
  match handlers with
  | Some handlers => settle_all o handlers w
  | None => w
  end.

(** Call number [calls w] runs lines 45-72. *)
Definition call (args : list Value) (now : Time) (w : World) : World :=
  let c := calls w in
  let '(m, s) := memoized (memo w) c args now in
  let w' := {| memo := m; clock := clock w; calls := S c; leaders := leaders w;
               invoked := invoked w; settled := settled w; seen := seen w |} in
  match s with
  | Rejects reason => settle c (Rejected reason) w'
  | Returns v => settle c (Resolved v) w'
  | Enqueues => w'
  | Awaits key =>
      {| memo := m; clock := clock w; calls := S c;
         leaders := (leaders w ++ [(c, key)])%list;
         invoked := (invoked w ++ [args])%list; settled := settled w;
         seen := seen w |}
  end.

(** Lines 73-93, run by leader [c] with [key] when [f] has fulfilled. *)
Definition resume_fulfilled (c : CallId) (key : string) (result : R) (now : Time)
  (w : World) : World :=
  let stored := store key result now (memo w) in
  let '(handlers, retired) := take_handlers key stored in
  let w' := settle_handlers (Resolved result) handlers (set_memo w retired) in
  settle c (Resolved result) w'.

(** Lines 94-104, run by leader [c] with [key] when [f] has rejected. *)
Definition resume_rejected (c : CallId) (key : string) (err : E) (w : World) : World :=
  let '(handlers, retired) := take_handlers key (memo w) in
  let w' := settle_handlers (Rejected (Thrown err)) handlers (set_memo w retired) in
  settle c (Rejected (Thrown err)) w'.

Definition leader_key (c : CallId) (w : World) : option string :=
  snd <$> List.find (fun l => Nat.eqb (fst l) c) (leaders w).

(** Leader [c] leaves line 72. *)
Definition wake (c : CallId) (w : World) : World :=
  {| memo := memo w; clock := clock w; calls := calls w;
     leaders := List.filter (fun l => negb (Nat.eqb (fst l) c)) (leaders w);
     invoked := invoked w; settled := settled w; seen := seen w |}.

Inductive Event : Type :=
  | Call (args : list Value) (now : Time)
  | Fulfil (c : CallId) (result : R) (now : Time)
  | Fail (c : CallId) (err : E)
  | ClearCache.

(** One block of the program runs to its end. A promise of [f] that
    settles is the one a suspended leader awaits. *)
Definition step (w : World) (ev : Event) : option World :=
  match ev with
  | Call args now => Some (call args now (tick now w))
  | Fulfil c result now =>
      key ← leader_key c w;
      Some (resume_fulfilled c key result now (wake c (tick now w)))
  | Fail c err =>
      key ← leader_key c w; Some (resume_rejected c key err (wake c w))
  | ClearCache => Some (set_memo w (clear_cache (memo w)))
  end.

Fixpoint run (w : World) (evs : list Event) : option World :=
  match evs with
  | [] => Some w
  | ev :: evs' => w' ← step w ev; run w' evs'
  end.

Definition start (m : Memoized) : World :=
  {| memo := m; clock := 0; calls := 0; leaders := []; invoked := []; settled := [];
     seen := [] |}.

(** The worlds a memoizer made by [memoize_async] can be in. *)
Definition reachable (w : World) : Prop :=
  exists options f m evs,
    memoize_async options f = Normal Memoized m /\ run (start m) evs = Some w.

(** The outcomes call [c] has received. *)
Definition outcomes (c : CallId) (w : World) : list Outcome :=
  snd <$> List.filter (fun s => Nat.eqb (fst s) c) (settled w).

(** The calls waiting in [queue], and all calls whose promise is pending. *)
Definition waiting (q : gmap string (list CallId)) : list CallId :=
  concat (snd <$> map_to_list q).

Definition pending (w : World) : list CallId :=
  ((fst <$> leaders w) ++ waiting (queue (memo w)))%list.

(** The event is a call whose arguments have the key [key]. *)
Definition calls_key (key : string) (ev : Event) : bool :=
  match ev with
  | Call args _ => bool_decide (JSON.stringify args = key)
  | _ => false
  end.

(** The event is the settlement of the promise of [f] that leader [c]
    awaits. *)
Definition settles (c : CallId) (ev : Event) : bool :=
  match ev with
  | Fulfil c' _ _ | Fail c' _ => Nat.eqb c' c
  | _ => false
  end.

(** [args] has the declared number of arguments and the key [key]. *)
Definition asks (fn : Func) (key : string) (args : list Value) : bool :=
  Nat.eqb (f_length fn) (List.length args) && bool_decide (JSON.stringify args = key).

(** The calls among [evs] that ask for [key], when the first call of [evs]
    is call number [c]. *)
Fixpoint askers (fn : Func) (key : string) (c : CallId) (evs : list Event)
  : list CallId :=
  match evs with
  | [] => []
  | Call args _ :: evs' =>
      ((if asks fn key args then [c] else []) ++ askers fn key (S c) evs')%list
  | _ :: evs' => askers fn key c evs'
  end.

(** In the run of [evs] from [w], every call that asks for [key] is made
    while the cache has no entry of [key] that has not expired. *)
Fixpoint misses (key : string) (w : World) (evs : list Event) : Prop :=
  match evs with
  | [] => True
  | ev :: evs' =>
      match ev with
      | Call args now =>
          asks (f (memo w)) key args = true -> cached (memo w) key now = None
      | _ => True
      end /\
      match step w ev with
      | Some w' => misses key w' evs'
      | None => True
      end
  end.

(** The invocations of [f] with arguments of key [key]. *)
Definition invoked_for (key : string) (w : World) : list (list Value) :=
  List.filter (fun args => bool_decide (JSON.stringify args = key)) (invoked w).

(** The results the promises of [f] were fulfilled with in the events, and
    what they were rejected with. *)
Definition fulfilled (evs : list Event) : list R :=
  omap (fun ev => match ev with Fulfil _ result _ => Some result | _ => None end) evs.

Definition failed (evs : list Event) : list E :=
  omap (fun ev => match ev with Fail _ err => Some err | _ => None end) evs.

(** Every result a call has been answered with and every value in the cache
    is among [results], every rejection is for the number of arguments or
    with one of [errors]. *)
Definition sourced (results : list R) (errors : list E) (w : World) : Prop :=
  (forall c result, (c, Resolved result) ∈ settled w -> result ∈ results) /\
  (forall c err, (c, Rejected (Thrown err)) ∈ settled w -> err ∈ errors) /\
  (forall c message, (c, Rejected (Error message)) ∈ settled w ->
     exists given,
       given <> f_length (f (memo w)) /\
       message = arity_message given (f_length (f (memo w)))) /\
  (forall key entry, JsMap.get (cache (memo w)) key = Some entry -> value entry ∈ results).

(** [key] has no record in [queue], and its entry, if any, expires at
    [bound] or before. *)
Definition idle (key : string) (bound : Time) (w : World) : Prop :=
  queue (memo w) !! key = None /\
  forall entry,
    JsMap.get (cache (memo w)) key = Some entry -> Date.expired (expiry entry) bound.

(** What holds of every world of a run (see [reachable_consistent]): the
    keys of [cache] are distinct; a key has a record in [queue] exactly
    when one leader is suspended on it; the entry of such a key, if any,
    had expired when its leader was called; and every call made so far is
    settled, leading or waiting, in one place only. *)
Record consistent (w : World) : Prop := {
  cache_keys : NoDup (JsMap.keys (cache (memo w)));
  one_leader : NoDup (snd <$> leaders w);
  in_flight : forall k, k ∈ (snd <$> leaders w) <-> is_Some (queue (memo w) !! k);
  stale : forall k entry,
    k ∈ (snd <$> leaders w) -> JsMap.get (cache (memo w)) k = Some entry ->
    Date.expired (expiry entry) (clock w);
  accounted : (pending w ++ (fst <$> settled w))%list ≡ₚ seq 0 (calls w)
}.

End Memoizer.

Arguments Reason : clear implicits.
Arguments Outcome : clear implicits.
Arguments Entry : clear implicits.
Arguments Memoized : clear implicits.
Arguments World : clear implicits.
Arguments Event : clear implicits.
Arguments Step : clear implicits.

(** ** Scenarios *)

Module Scenario.

(** A host whose local time is UTC. *)
Definition utc : Host := {| LocalTZA := fun _ _ => 0 |}.

(** A host in the time zone America/New_York, for the times between March
    2026 and March 2027: daylight saving time ends on 1 November 2026 at
    06:00 UTC (time value 1793512800000), when the local clocks go from
    02:00 back to 01:00. The local times from 01:00 to 02:00 of that day
    occur twice and are read with the offset before the change, as ECMA-262
    prescribes; local 02:00 has the time value 1793498400000. *)
Definition new_york : Host :=
  {| LocalTZA := fun t isUTC =>
       if isUTC then (if t <? 1793512800000 then -14400000 else -18000000)
       else (if t <? 1793498400000 then -14400000 else -18000000) |}.

(** [memoize_async({ ttl: 60, size: 2 }, f)] for an [f] of one parameter
    whose results are numbers and whose failures are messages. *)
Definition example : Memoized nat :=
  {| options := {| ttl := Num.of_Z 60; size := 2 |}; f := {| f_length := 1 |};
     cache := []; queue := ∅ |}.

Definition num (z : Z) : list Value := [VNumber (Finite z)].

(** The world after the events [evs], from the start of [example], on the
    host [utc]. *)
Definition after (evs : list (Event nat string)) : World nat string :=
  default (start example) (run (host := utc) (start example) evs).

(** Three calls of [f(5)] and one of [f(7)] before anything settles. *)
Definition three_callers : list (Event nat string) :=
  [Call (num 5) 1; Call (num 7) 2; Call (num 5) 3].

(** [f(1)] is called and awaited. *)
Definition leading : list (Event nat string) := [Call (num 1) 0].

(** [f(1)] is awaited and two more calls of it wait. *)
Definition joined : list (Event nat string) :=
  [Call (num 1) 0; Call (num 1) 1; Call (num 1) 2].

(** The cache holds the results of [f(1)] and [f(2)], and [f(3)] is awaited. *)
Definition full_and_new_key : list (Event nat string) :=
  [Call (num 1) 0; Fulfil 0%nat 2%nat 0; Call (num 2) 0; Fulfil 1%nat 4%nat 0;
   Call (num 3) 0].

(** The cache holds the results of [f(1)] and [f(2)]; both have expired
    after 70 seconds, and [f(2)] is called again and awaited. *)
Definition full_and_same_key : list (Event nat string) :=
  [Call (num 1) 0; Fulfil 0%nat 2%nat 0; Call (num 2) 0; Fulfil 1%nat 4%nat 0;
   Call (num 2) 70000].

(** The number 0.5. *)
Definition half : spec_float := binary_normalize Num.prec Num.emax 1 (-1) false.

(** [memoize_async({ ttl: 0.5, size: 2 }, f)]. *)
Definition half_second : Memoized nat :=
  {| options := {| ttl := half; size := 2 |}; f := {| f_length := 1 |};
     cache := []; queue := ∅ |}.

(** [memoize_async({ ttl: Infinity, size: 2 }, f)]. *)
Definition for_ever : Memoized nat :=
  {| options := {| ttl := S754_infinity false; size := 2 |}; f := {| f_length := 1 |};
     cache := []; queue := ∅ |}.

(** [memoize_async({ ttl: 60, size: 0 }, f)]. *)
Definition no_room : Memoized nat :=
  {| options := {| ttl := Num.of_Z 60; size := 0 |}; f := {| f_length := 1 |};
     cache := []; queue := ∅ |}.

(** Options outside the bounds of the specification. *)
Definition bad_options : Options := {| ttl := Num.of_Z (-1); size := 0 |}.

End Scenario.

(** * Facts about [JsMap] *)

Section JsMapFacts.
Context {V : Type}.
Implicit Types (m : list (string * V)) (k : string) (v : V).

Lemma JsMap_get_None m k : JsMap.get m k = None <-> k ∉ JsMap.keys m.
Proof.
  induction m as [|[k' v'] m IH]; simpl.
  - split; [intros _; apply not_elem_of_nil | done].
  - case_decide as Hk.
    + subst. split; [done | intros []; left].
    + rewrite IH, not_elem_of_cons. tauto.
Qed.

Lemma JsMap_get_Some_key m k v : JsMap.get m k = Some v -> k ∈ JsMap.keys m.
Proof.
  intros H. destruct (decide (k ∈ JsMap.keys m)) as [|Hn]; [done|].
  apply JsMap_get_None in Hn. congruence.
Qed.

Lemma JsMap_get_set_eq m k v : JsMap.get (JsMap.set m k v) k = Some v.
Proof.
  induction m as [|[k' v'] m IH]; simpl.
  - by rewrite decide_True.
  - case_decide; simpl; [by rewrite decide_True | by rewrite decide_False].
Qed.

Lemma JsMap_get_set_ne m k k' v :
  k <> k' -> JsMap.get (JsMap.set m k v) k' = JsMap.get m k'.
Proof.
  intros Hne. induction m as [|[k0 v0] m IH]; simpl.
  - by rewrite decide_False.
  - destruct (decide (k = k0)) as [->|]; simpl.
    + by rewrite !(decide_False (P := k' = k0)).
    + by rewrite IH.
Qed.

Lemma JsMap_get_delete_ne m k k' :
  k <> k' -> JsMap.get (JsMap.delete m k) k' = JsMap.get m k'.
Proof.
  intros Hne. induction m as [|[k0 v0] m IH]; simpl; [done|].
  destruct (decide (k = k0)) as [->|]; simpl.
  - by rewrite decide_False.
  - by rewrite IH.
Qed.

Lemma JsMap_keys_delete_subseteq m k : JsMap.keys (JsMap.delete m k) ⊆ JsMap.keys m.
Proof.
  induction m as [|[k0 v0] m IH]; simpl; [done|].
  case_decide; simpl; [intros x Hx; by right|].
  intros x. rewrite !elem_of_cons. intros [->|Hx]; [by left|right; by apply IH].
Qed.

Lemma JsMap_NoDup_delete m k : NoDup (JsMap.keys m) -> NoDup (JsMap.keys (JsMap.delete m k)).
Proof.
  induction m as [|[k0 v0] m IH]; simpl; [done|].
  intros [Hn Hm]%NoDup_cons. case_decide; simpl; [done|].
  apply NoDup_cons. split; [|by apply IH].
  intros Hin. apply Hn. by apply (JsMap_keys_delete_subseteq m k).
Qed.

Lemma JsMap_get_delete_eq m k : NoDup (JsMap.keys m) -> JsMap.get (JsMap.delete m k) k = None.
Proof.
  induction m as [|[k0 v0] m IH]; simpl; [done|].
  intros [Hn Hm]%NoDup_cons. destruct (decide (k = k0)) as [->|]; simpl.
  - by apply JsMap_get_None.
  - rewrite decide_False by done. by apply IH.
Qed.

Lemma JsMap_keys_set m k v :
  JsMap.keys (JsMap.set m k v) =
    if decide (k ∈ JsMap.keys m) then JsMap.keys m else (JsMap.keys m ++ [k])%list.
Proof.
  induction m as [|[k0 v0] m IH]; cbn [JsMap.set JsMap.keys List.map fst].
  - rewrite decide_False; [done | apply not_elem_of_nil].
  - destruct (decide (k = k0)) as [->|Hne]; cbn [JsMap.keys List.map fst].
    + rewrite decide_True; [done | left].
    + fold (JsMap.keys m). fold (JsMap.keys (JsMap.set m k v)).
      rewrite IH. destruct (decide (k ∈ JsMap.keys m)) as [Hin|Hin].
      * rewrite decide_True; [done | by right].
      * rewrite decide_False; [done|]. rewrite not_elem_of_cons. done.
Qed.

Lemma JsMap_NoDup_set m k v : NoDup (JsMap.keys m) -> NoDup (JsMap.keys (JsMap.set m k v)).
Proof.
  intros Hm. rewrite JsMap_keys_set. case_decide; [done|].
  apply NoDup_app. split_and!; [done| |apply NoDup_singleton].
  intros x Hx ->%list_elem_of_singleton. done.
Qed.

Lemma JsMap_set_absent m k v :
  JsMap.get m k = None -> JsMap.set m k v = (m ++ [(k, v)])%list.
Proof.
  induction m as [|[k0 v0] m IH]; simpl; [done|].
  case_decide; [done|]. intros Hget. by rewrite IH.
Qed.

Lemma JsMap_size_set m k v :
  JsMap.size (JsMap.set m k v) =
    match JsMap.get m k with
    | Some _ => JsMap.size m
    | None => S (JsMap.size m)
    end.
Proof.
  unfold JsMap.size. induction m as [|[k0 v0] m IH]; simpl; [done|].
  case_decide; simpl; [done|]. rewrite IH. by destruct (JsMap.get m k).
Qed.

Lemma JsMap_delete_first m :
  JsMap.delete_value m (JsMap.first_key m) = tail m.
Proof. destruct m as [|[k0 v0] m]; simpl; [done|]. by rewrite decide_True. Qed.

End JsMapFacts.

Lemma JsMap_get_delete_Some {V : Type} (m : list (string * V)) k k' v :
    NoDup (JsMap.keys m) ->
    JsMap.get (JsMap.delete m k) k' = Some v -> JsMap.get m k' = Some v.
Proof.
  intros Hm. destruct (decide (k = k')) as [->|Hne].
  - by rewrite JsMap_get_delete_eq.
  - by rewrite JsMap_get_delete_ne.
Qed.

(** * The blocks of the memoizer, one by one *)

Section Blocks.
Context {R E : Type} {host : Host}.
Implicit Types (w : World R E) (m : Memoized R) (o : Outcome R E).
Implicit Types (c h : CallId) (key k : string) (q : gmap string (list CallId)).

Lemma settle_all_settled o hs w :
  settled (settle_all o hs w) = (settled w ++ ((fun h => (h, o)) <$> hs))%list.
Proof.
  revert w. induction hs as [|h hs IH]; intros w; simpl.
  - by rewrite app_nil_r.
  - rewrite IH. simpl. by rewrite <- app_assoc.
Qed.

Lemma settle_all_frame o hs w :
  memo (settle_all o hs w) = memo w /\ clock (settle_all o hs w) = clock w /\
  calls (settle_all o hs w) = calls w /\ leaders (settle_all o hs w) = leaders w /\
  invoked (settle_all o hs w) = invoked w.
Proof.
  revert w. induction hs as [|h hs IH]; intros w; simpl; [done|].
  by destruct (IH (settle h o w)) as (-> & -> & -> & -> & ->).
Qed.


Lemma memoized_inv m c args now :
  memoized_cases (E:=E) m c args now (memoized m c args now).
Proof.
  unfold memoized.
  destruct (Nat.eqb_spec (f_length (f m)) (List.length args)) as [Heq|Hne]; simpl.
  - destruct (cached m (JSON.stringify args) now) as [v|] eqn:Hc.
    + by apply case_hit.
    + destruct (queue m !! JSON.stringify args) as [hs|] eqn:Hq.
      * by apply case_wait.
      * by apply case_lead.
  - apply case_arity. congruence.
Qed.

Lemma after_expired (date : Date) (now : Time) :
  Date.after date now = false <-> Date.expired date now.
Proof. destruct date as [t|]; simpl; [apply Z.ltb_ge | done]. Qed.

Lemma expired_later (date : Date) (t t' : Time) :
  Date.expired date t -> t <= t' -> Date.expired date t'.
Proof. destruct date as [e|]; simpl; [lia | done]. Qed.

Lemma cached_Some m key now v :
  cached m key now = Some v <->
  exists entry,
    JsMap.get (cache m) key = Some entry /\ value entry = v /\
    Date.after (expiry entry) now = true.
Proof.
  unfold cached. destruct (JsMap.get (cache m) key) as [entry|].
  - destruct (Date.after (expiry entry) now) eqn:Hafter; split.
    + intros [= <-]. by exists entry.
    + intros (? & [= <-] & <- & _). done.
    + done.
    + intros (? & [= <-] & _ & ?). congruence.
  - split; [done | intros (? & ? & _); done].
Qed.

Lemma cached_None m key now :
  cached m key now = None <->
  forall entry, JsMap.get (cache m) key = Some entry -> Date.expired (expiry entry) now.
Proof.
  unfold cached. destruct (JsMap.get (cache m) key) as [entry|].
  - destruct (Date.after (expiry entry) now) eqn:Hafter; split.
    + done.
    + intros H'. specialize (H' _ eq_refl). apply after_expired in H'. congruence.
    + intros _ ? [= <-]. by apply after_expired.
    + done.
  - split; [intros _ ? [=] | done].
Qed.

(** Line 86 and 97 leave no record of [key]; the other records stay. *)
Lemma take_handlers_queue key m :
  queue (snd (take_handlers key m)) = delete key (queue m) /\
  cache (snd (take_handlers key m)) = cache m /\
  fst (take_handlers key m) = queue m !! key.
Proof. done. Qed.

Lemma store_queue key result now m : queue (store key result now m) = queue m.
Proof. done. Qed.

Lemma store_get_eq key (result : R) now m :
  JsMap.get (cache (store key result now m)) key
  = Some {| value := result; expiry := Date.expires now (ttl (options m)) |}.
Proof. unfold store. simpl. apply JsMap_get_set_eq. Qed.

Lemma store_NoDup key (result : R) now m :
  NoDup (JsMap.keys (cache m)) -> NoDup (JsMap.keys (cache (store key result now m))).
Proof.
  intros Hm. unfold store. simpl. apply JsMap_NoDup_set.
  case_match; [|done]. rewrite JsMap_delete_first.
  destruct (cache m) as [|[k0 e0] rest]; simpl in *; [done|].
  by apply NoDup_cons in Hm as [_ ?].
Qed.

(** An entry of another key that is in the cache after the store was in
    it before. *)
Lemma store_get_ne key (result : R) now m k entry :
  NoDup (JsMap.keys (cache m)) -> key <> k ->
  JsMap.get (cache (store key result now m)) k = Some entry ->
  JsMap.get (cache m) k = Some entry.
Proof.
  intros Hm Hne. unfold store. simpl. rewrite JsMap_get_set_ne by done.
  case_match; [|done]. unfold JsMap.delete_value.
  destruct (JsMap.first_key (cache m)); [|done]. by apply JsMap_get_delete_Some.
Qed.

End Blocks.

(** * The calls in progress *)

Section Pending.
Implicit Types (q : gmap string (list CallId)) (k : string) (hs : list CallId).

Lemma waiting_empty : waiting ∅ = [].
Proof. unfold waiting. by rewrite map_to_list_empty. Qed.

Lemma waiting_insert_None q k hs :
  q !! k = None -> waiting (<[k := hs]> q) ≡ₚ (hs ++ waiting q)%list.
Proof. intros Hk. unfold waiting. by rewrite map_to_list_insert. Qed.

Lemma waiting_delete q k hs :
  q !! k = Some hs -> waiting q ≡ₚ (hs ++ waiting (delete k q))%list.
Proof.
  intros Hk. unfold waiting. by rewrite <- (map_to_list_delete q k hs Hk).
Qed.

Lemma waiting_insert_Some q k hs hs' :
  q !! k = Some hs -> waiting (<[k := hs']> q) ≡ₚ (hs' ++ waiting (delete k q))%list.
Proof.
  intros Hk. rewrite <- insert_delete_eq. apply waiting_insert_None, lookup_delete_eq.
Qed.

Lemma waiting_elem_of q k hs h : q !! k = Some hs -> h ∈ hs -> h ∈ waiting q.
Proof.
  intros Hk Hh. rewrite (waiting_delete q k hs Hk). apply elem_of_app. by left.
Qed.

Lemma keep_others (l : list (CallId * string)) c :
  c ∉ (fst <$> l) -> List.filter (fun x => negb (Nat.eqb (fst x) c)) l = l.
Proof.
  induction l as [|[c0 k0] l IH]; simpl; [done|].
  rewrite not_elem_of_cons. intros [Hne Hl].
  destruct (Nat.eqb_spec c0 c); [congruence|]. simpl. by rewrite IH.
Qed.

Lemma drop_leader (l : list (CallId * string)) c k :
  NoDup (fst <$> l) -> (c, k) ∈ l ->
  l ≡ₚ (c, k) :: List.filter (fun x => negb (Nat.eqb (fst x) c)) l.
Proof.
  induction l as [|[c0 k0] l IH]; simpl.
  - intros _ []%elem_of_nil.
  - intros [Hc0 Hl]%NoDup_cons [Heq|Hin]%elem_of_cons.
    + injection Heq as <- <-. rewrite Nat.eqb_refl. simpl. by rewrite keep_others.
    + destruct (Nat.eqb_spec c0 c) as [->|Hne]; simpl.
      * exfalso. apply Hc0. apply list_elem_of_fmap. by exists (c, k).
      * rewrite (IH Hl Hin) at 1. apply Permutation_swap.
Qed.

Lemma find_leader (l : list (CallId * string)) c k :
  snd <$> List.find (fun x => Nat.eqb (fst x) c) l = Some k -> (c, k) ∈ l.
Proof.
  destruct (List.find (fun x => Nat.eqb (fst x) c) l) as [[c0 k0]|] eqn:Hf; [|done].
  intros [= <-]. apply find_some in Hf as [Hin Hc]. simpl in Hc.
  apply Nat.eqb_eq in Hc as ->. by apply list_elem_of_In.
Qed.

Lemma find_leader_NoDup (l : list (CallId * string)) c k :
  NoDup (fst <$> l) -> (c, k) ∈ l ->
  snd <$> List.find (fun x => Nat.eqb (fst x) c) l = Some k.
Proof.
  induction l as [|[c0 k0] l IH]; simpl.
  - intros _ []%elem_of_nil.
  - intros [Hc0 Hl]%NoDup_cons [Heq|Hin]%elem_of_cons.
    + injection Heq as <- <-. by rewrite Nat.eqb_refl.
    + destruct (Nat.eqb_spec c0 c) as [->|Hne]; simpl; [|by apply IH].
      exfalso. apply Hc0. apply list_elem_of_fmap. by exists (c, k).
Qed.

End Pending.

(** * Every world of a run is consistent *)

Section Invariant.
Context {R E : Type} {host : Host}.
Implicit Types (w : World R E) (m : Memoized R) (o : Outcome R E).
Implicit Types (c h : CallId) (key k : string).

Lemma consistent_start m :
  cache m = [] -> queue m = ∅ -> consistent (start m : World R E).
Proof.
  intros Hc Hq. split; simpl; rewrite ?Hc, ?Hq.
  - apply NoDup_nil_2.
  - apply NoDup_nil_2.
  - intros k. rewrite lookup_empty. split; [intros []%elem_of_nil | intros []; done].
  - intros k entry []%elem_of_nil.
  - unfold pending. simpl. rewrite Hq, waiting_empty. done.
Qed.

Lemma consistent_tick now w : consistent w -> consistent (tick now w).
Proof.
  intros [H1 H2 H3 H4 H5]. split; simpl; try done.
  intros k entry Hk He. specialize (H4 k entry Hk He).
  apply (expired_later _ _ _ H4). lia.
Qed.

Lemma consistent_distinct w :
  consistent w -> NoDup (pending w ++ (fst <$> settled w)).
Proof. intros Hw. rewrite (accounted w Hw). apply NoDup_seq. Qed.

Lemma consistent_leader_ids w : consistent w -> NoDup (fst <$> leaders w).
Proof.
  intros Hw. pose proof (consistent_distinct w Hw) as Hd. unfold pending in Hd.
  by apply NoDup_app in Hd as [[? _]%NoDup_app _].
Qed.

Lemma consistent_call args now w :
  now <= clock w -> consistent w -> consistent (call args now w).
Proof.
  intros Hnow Hw. pose proof (consistent_leader_ids w Hw) as Hids.
  destruct Hw as [H1 H2 H3 H4 H5]. unfold call.
  pose proof (memoized_inv (E:=E) (memo w) (calls w) args now) as Hc.
  destruct (memoized (memo w) (calls w) args now) as [m s].
  inversion Hc as [Hlen|v Hlen Hhit|hs Hlen Hmiss Hq|Hlen Hmiss Hq]; subst m s; clear Hc.
  - split; [done..|].
    unfold pending, settle; cbn [memo leaders settled calls].
    rewrite fmap_app, seq_S. simpl. rewrite <- H5. solve_Permutation.
  - split; [done..|].
    unfold pending, settle; cbn [memo leaders settled calls].
    rewrite fmap_app, seq_S. simpl. rewrite <- H5. solve_Permutation.
  - split; [done|done| | |].
    + intros k. simpl. rewrite H3. rewrite lookup_insert. case_decide; [subst|done].
      rewrite Hq. split; intros _; eauto.
    + done.
    + unfold pending in *; cbn [memo leaders settled calls queue set_queue].
      rewrite (waiting_insert_Some _ _ _ _ Hq), seq_S. simpl.
      rewrite <- H5. rewrite (waiting_delete _ _ _ Hq). solve_Permutation.
  - set (key := JSON.stringify args) in *.
    assert (key ∉ (snd <$> leaders w)) as Hfree.
    { rewrite H3, Hq. by intros []. }
    split; [done| | | |].
    + simpl. rewrite fmap_app. apply NoDup_app. split_and!; [done| |apply NoDup_singleton].
      intros k Hk ->%list_elem_of_singleton. done.
    + intros k. simpl. rewrite fmap_app, elem_of_app, H3, lookup_insert. simpl.
      rewrite list_elem_of_singleton. case_decide; [subst|].
      * split; [eauto | by right].
      * split; [intros [?|?]; [done | congruence] | intros ?; by left].
    + intros k entry. simpl. rewrite fmap_app, elem_of_app. simpl.
      rewrite list_elem_of_singleton. intros [Hk| ->] He; [by eapply H4|].
      pose proof (proj1 (cached_None _ _ _) Hmiss _ He) as Hexp.
      by apply (expired_later _ _ _ Hexp).
    + unfold pending in *; cbn [memo leaders settled calls queue set_queue].
      rewrite (waiting_insert_None _ _ _ Hq), seq_S, fmap_app. simpl.
      rewrite <- H5. solve_Permutation.
Qed.

Lemma settle_handlers_settled o hs w :
  settled (settle_handlers o (Some hs) w) = (settled w ++ ((fun h => (h, o)) <$> hs))%list.
Proof. apply settle_all_settled. Qed.

Lemma fst_tagged o (hs : list CallId) : fst <$> ((fun h => (h, o)) <$> hs) = hs.
Proof. induction hs as [|h hs IH]; [done|]. cbn. by f_equal. Qed.

(** Lines 85-93 and 96-103 in a consistent world: leader [c] takes the
    handlers of [key], removes the record, settles them and itself. The
    memoizer [m'] is the one of [w] after lines 74-82, or the one of [w]. *)
Lemma consistent_retire w c key m' o :
  consistent w ->
  leader_key c w = Some key ->
  NoDup (JsMap.keys (cache m')) ->
  queue m' = queue (memo w) ->
  (forall k entry, key <> k ->
     JsMap.get (cache m') k = Some entry -> JsMap.get (cache (memo w)) k = Some entry) ->
  consistent
    (settle c o (settle_handlers o (queue m' !! key)
       (set_memo (wake c w) (set_queue m' (delete key (queue m')))))).
Proof.
  intros Hw Hc Hm' Hq Hget. pose proof (consistent_leader_ids w Hw) as Hids.
  destruct Hw as [H1 H2 H3 H4 H5].
  apply find_leader in Hc as Hin.
  pose proof (drop_leader _ _ _ Hids Hin) as Hperm.
  assert (key ∈ (snd <$> leaders w)) as Hkey.
  { apply list_elem_of_fmap. by exists (c, key). }
  destruct (proj1 (H3 key) Hkey) as [hs Hhs].
  rewrite Hq, Hhs.
  pose proof (fmap_Permutation snd _ _ Hperm) as Hperm2. simpl in Hperm2.
  rewrite Hperm2 in H2. apply NoDup_cons in H2 as [Hfresh H2].
  assert (forall k, k ∈ (snd <$> leaders (wake c w)) <->
                    k ∈ (snd <$> leaders w) /\ key <> k) as Hk.
  { intros k. rewrite Hperm2, elem_of_cons. simpl. split.
    - intros Hk. split; [by right|]. intros <-. done.
    - intros [[->|Hk] Hne]; done. }
  destruct (settle_all_frame o hs (set_memo (wake c w) (set_queue m' (delete key (queue (memo w))))))
    as (Hf1 & Hf2 & Hf3 & Hf4 & Hf5).
  split.
  - cbn [settle memo settle_handlers]. by rewrite Hf1.
  - cbn [settle leaders settle_handlers]. by rewrite Hf4.
  - intros k. cbn [settle leaders memo settle_handlers]. rewrite Hf1, Hf4. simpl.
    rewrite Hk, H3, lookup_delete. case_decide; [subst|].
    + split; [intros [_ []]; done | intros []; done].
    + tauto.
  - intros k entry. cbn [settle leaders memo clock settle_handlers].
    rewrite Hf1, Hf2, Hf4. simpl.
    intros [Hk1 Hk2]%Hk He. eapply H4; [done|]. by apply Hget.
  - unfold pending in *. cbn [settle leaders memo calls settled settle_handlers].
    rewrite Hf1, Hf3, Hf4, settle_all_settled. simpl.
    rewrite !fmap_app, fst_tagged. simpl. rewrite <- H5.
    rewrite (waiting_delete _ _ _ Hhs).
    pose proof (fmap_Permutation fst _ _ Hperm) as Hperm1. simpl in Hperm1.
    rewrite Hperm1. solve_Permutation.
Qed.

Lemma consistent_fail w c key err :
  consistent w -> leader_key c w = Some key ->
  consistent (resume_rejected c key err (wake c w)).
Proof.
  intros Hw Hc. apply (consistent_retire w c key (memo w)); try done.
  apply (cache_keys w Hw).
Qed.

Lemma consistent_fulfil w c key result now :
  consistent w -> leader_key c w = Some key ->
  consistent (resume_fulfilled c key result now (wake c w)).
Proof.
  intros Hw Hc.
  apply (consistent_retire w c key (store key result now (memo w))); try done.
  - apply store_NoDup, (cache_keys w Hw).
  - intros k entry Hne. apply store_get_ne; [apply (cache_keys w Hw) | done].
Qed.

Lemma consistent_clear w : consistent w -> consistent (set_memo w (clear_cache (memo w))).
Proof.
  intros [H1 H2 H3 H4 H5]. split; try done.
  apply NoDup_nil_2.
Qed.

Lemma leader_key_tick c now w : leader_key c (tick now w) = leader_key c w.
Proof. done. Qed.

Lemma consistent_step w ev w' : consistent w -> step w ev = Some w' -> consistent w'.
Proof.
  intros Hw. destruct ev as [args now|c result now|c err|]; simpl.
  - intros [= <-]. apply consistent_call; [simpl; lia | by apply consistent_tick].
  - destruct (leader_key c w) as [key|] eqn:Hc; [|done]. intros [= <-].
    apply consistent_fulfil; [by apply consistent_tick | done].
  - destruct (leader_key c w) as [key|] eqn:Hc; [|done]. intros [= <-].
    by apply consistent_fail.
  - intros [= <-]. by apply consistent_clear.
Qed.

Lemma consistent_run evs : forall w w', consistent w -> run w evs = Some w' -> consistent w'.
Proof.
  induction evs as [|ev evs IH]; simpl; intros w w' Hw.
  - by intros [= <-].
  - destruct (step w ev) as [w1|] eqn:Hs; [|done]. simpl.
    apply IH. by eapply consistent_step.
Qed.

Lemma reachable_consistent w : reachable w -> consistent w.
Proof.
  intros (opts & fn & m & evs & [= <-] & Hrun).
  eapply consistent_run; [|done]. by apply consistent_start.
Qed.

End Invariant.

(** * What one block changes *)

Section Frames.
Context {R E : Type} {host : Host}.
Implicit Types (w : World R E) (m : Memoized R) (o : Outcome R E).
Implicit Types (c h : CallId) (key k : string).

(** A call never writes to the cache, whichever way it takes. *)
Lemma memoized_cache m c args now :
  cache (fst (memoized (E:=E) m c args now)) = cache m /\
  options (fst (memoized (E:=E) m c args now)) = options m /\
  f (fst (memoized (E:=E) m c args now)) = f m.
Proof. by destruct (memoized_inv (E:=E) m c args now). Qed.

Lemma call_memo args now w :
  memo (call args now w) = fst (memoized (E:=E) (memo w) (calls w) args now).
Proof.
  unfold call. destruct (memoized (memo w) (calls w) args now) as [m []]; done.
Qed.

Lemma call_cache args now w : cache (memo (call args now w)) = cache (memo w).
Proof. rewrite call_memo. apply memoized_cache. Qed.

Lemma resume_fulfilled_unfold c key result now w :
  resume_fulfilled c key result now w =
  settle c (Resolved result)
    (settle_handlers (Resolved result) (queue (memo w) !! key)
       (set_memo w (set_queue (store key result now (memo w)) (delete key (queue (memo w)))))).
Proof. done. Qed.

Lemma resume_rejected_unfold c key err w :
  resume_rejected c key err w =
  settle c (Rejected (Thrown err))
    (settle_handlers (Rejected (Thrown err)) (queue (memo w) !! key)
       (set_memo w (set_queue (memo w) (delete key (queue (memo w)))))).
Proof. done. Qed.

Lemma settle_handlers_frame o hs w :
  memo (settle_handlers o hs w) = memo w /\ clock (settle_handlers o hs w) = clock w /\
  calls (settle_handlers o hs w) = calls w /\ leaders (settle_handlers o hs w) = leaders w /\
  invoked (settle_handlers o hs w) = invoked w.
Proof. destruct hs as [hs|]; [apply settle_all_frame | done]. Qed.

Lemma resume_fulfilled_memo c key result now w :
  memo (resume_fulfilled c key result now w)
  = set_queue (store key result now (memo w)) (delete key (queue (memo w))).
Proof.
  rewrite resume_fulfilled_unfold. cbn [settle memo].
  by destruct (settle_handlers_frame (Resolved result) (queue (memo w) !! key)
    (set_memo w (set_queue (store key result now (memo w)) (delete key (queue (memo w))))))
    as (-> & _).
Qed.

Lemma resume_rejected_memo c key err w :
  memo (resume_rejected c key err w) = set_queue (memo w) (delete key (queue (memo w))).
Proof.
  rewrite resume_rejected_unfold. cbn [settle memo].
  by destruct (settle_handlers_frame (Rejected (Thrown err)) (queue (memo w) !! key)
    (set_memo w (set_queue (memo w) (delete key (queue (memo w))))))
    as (-> & _).
Qed.

Lemma resume_fulfilled_rest c key result now w :
  let w' := resume_fulfilled c key result now w in
  clock w' = clock w /\ calls w' = calls w /\ leaders w' = leaders w /\
  invoked w' = invoked w.
Proof.
  intros w'. subst w'. rewrite resume_fulfilled_unfold. cbn [settle clock calls leaders invoked].
  by destruct (settle_handlers_frame (Resolved result) (queue (memo w) !! key)
    (set_memo w (set_queue (store key result now (memo w)) (delete key (queue (memo w))))))
    as (_ & -> & -> & -> & ->).
Qed.

Lemma resume_rejected_rest c key err w :
  let w' := resume_rejected c key err w in
  clock w' = clock w /\ calls w' = calls w /\ leaders w' = leaders w /\
  invoked w' = invoked w.
Proof.
  intros w'. subst w'. rewrite resume_rejected_unfold. cbn [settle clock calls leaders invoked].
  by destruct (settle_handlers_frame (Rejected (Thrown err)) (queue (memo w) !! key)
    (set_memo w (set_queue (memo w) (delete key (queue (memo w))))))
    as (_ & -> & -> & -> & ->).
Qed.

(** What the leader's block delivers: the outcome to the handlers in the
    order they were pushed, then to the leader. *)
Lemma resume_fulfilled_settled c key result now w hs :
  queue (memo w) !! key = Some hs ->
  settled (resume_fulfilled c key result now w)
  = (settled w ++ ((fun h => (h, Resolved result)) <$> hs) ++ [(c, Resolved result)])%list.
Proof.
  intros Hq. rewrite resume_fulfilled_unfold, Hq. cbn [settle settled].
  rewrite settle_handlers_settled. simpl. by rewrite <- app_assoc.
Qed.

Lemma resume_rejected_settled c key err w hs :
  queue (memo w) !! key = Some hs ->
  settled (resume_rejected c key err w)
  = (settled w ++ ((fun h => (h, Rejected (Thrown err))) <$> hs)
       ++ [(c, Rejected (Thrown err))])%list.
Proof.
  intros Hq. rewrite resume_rejected_unfold, Hq. cbn [settle settled].
  rewrite settle_handlers_settled. simpl. by rewrite <- app_assoc.
Qed.

Lemma step_options w ev w' :
  step w ev = Some w' ->
  options (memo w') = options (memo w) /\ f (memo w') = f (memo w).
Proof.
  destruct ev as [args now|c result now|c err|]; simpl.
  - intros [= <-]. rewrite call_memo. simpl.
    by destruct (memoized_cache (memo w) (calls w) args now) as (_ & -> & ->).
  - destruct (leader_key c w); [|done]. intros [= <-].
    by rewrite resume_fulfilled_memo.
  - destruct (leader_key c w); [|done]. intros [= <-].
    by rewrite resume_rejected_memo.
  - by intros [= <-].
Qed.

Lemma run_options evs : forall w w',
  run w evs = Some w' ->
  options (memo w') = options (memo w) /\ f (memo w') = f (memo w).
Proof.
  induction evs as [|ev evs IH]; simpl; intros w w'.
  - by intros [= <-].
  - destruct (step w ev) as [w1|] eqn:Hs; [|done]. simpl. intros Hr.
    destruct (IH _ _ Hr) as [-> ->]. by apply (step_options w ev).
Qed.

End Frames.

(** * A key nobody asks for *)

Section Quiet.
Context {R E : Type} {host : Host}.
Implicit Types (w : World R E) (m : Memoized R) (o : Outcome R E).
Implicit Types (c h : CallId) (key k : string).

Lemma idle_step key bound w ev w' :
  consistent w -> calls_key key ev = false -> step w ev = Some w' ->
  idle key bound w -> idle key bound w'.
Proof.
  intros Hw Hev Hstep [Hq Hc]. unfold idle.
  destruct ev as [args now|c result now|c err|]; simpl in Hstep, Hev.
  - apply bool_decide_eq_false in Hev. injection Hstep as <-.
    rewrite call_memo. simpl.
    destruct (memoized_inv (E:=E) (memo w) (calls w) args now); split; simpl; try done.
    + by rewrite lookup_insert_ne.
    + by rewrite lookup_insert_ne.
  - destruct (leader_key c w) as [key'|] eqn:Hl; [|done]. injection Hstep as <-.
    assert (key' <> key) as Hne.
    { intros ->. apply find_leader in Hl.
      assert (key ∈ (snd <$> leaders w)) as Hin.
      { apply list_elem_of_fmap. by exists (c, key). }
      apply (in_flight w Hw) in Hin as [? ?]. congruence. }
    rewrite resume_fulfilled_memo. split; simpl.
    + by rewrite lookup_delete_ne.
    + intros entry He. apply Hc.
      apply (store_get_ne key' result now (memo w)); [apply (cache_keys w Hw)|done|done].
  - destruct (leader_key c w) as [key'|] eqn:Hl; [|done]. injection Hstep as <-.
    rewrite resume_rejected_memo. split; simpl; [|done].
    rewrite lookup_delete. by case_decide.
  - injection Hstep as <-. split; simpl; done.
Qed.

Lemma idle_run key bound evs : forall w w',
  consistent w -> Forall (fun ev => calls_key key ev = false) evs ->
  run w evs = Some w' -> idle key bound w -> idle key bound w'.
Proof.
  induction evs as [|ev evs IH]; simpl; intros w w' Hw Hevs.
  - by intros [= <-].
  - apply Forall_cons in Hevs as [Hev Hevs].
    destruct (step w ev) as [w1|] eqn:Hs; [|done]. simpl. intros Hr Hi.
    apply (IH w1 w'); [by eapply consistent_step|done|done|].
    by eapply idle_step.
Qed.






(** A call of an idle key, made at [bound] or after, is a leader. *)
Lemma idle_call key bound w args now :
  idle key bound w -> JSON.stringify args = key ->
  List.length args = f_length (f (memo w)) -> bound <= now ->
  memoized (E:=E) (memo w) (calls w) args now
  = (set_queue (memo w) (<[key := []]> (queue (memo w))), Awaits key).
Proof.
  intros [Hq Hc] <- Hlen Hnow.
  destruct (memoized_inv (E:=E) (memo w) (calls w) args now) as [Hne|v _ Hv|hs _ _ Hhs|]; try done.
  - apply cached_Some in Hv as (entry & He & _ & Hlt). specialize (Hc _ He).
    apply (expired_later _ _ now) in Hc; [|done]. apply after_expired in Hc. congruence.
  - congruence.
Qed.

End Quiet.

(** * The claims *)

Section Claims.
Context {R E : Type} {host : Host}.
Implicit Types (w : World R E) (m : Memoized R) (o : Outcome R E).
Implicit Types (c h : CallId) (key k : string).

(** C4, as amended. [memoize_async] does not validate its options: for
    every [ttl] and [size], also a negative [ttl] and a [size] that is not
    positive, construction returns a memoizer that holds the options as
    given, with an empty cache and no in-flight record; it never throws. *)
Theorem memoize_async_accepts_any_options (opts : Options) (fn : Func) :
  memoize_async (R:=R) (E:=E) opts fn
    = Normal _ {| options := opts; f := fn; cache := []; queue := ∅ |} /\
  (forall reason, memoize_async (R:=R) (E:=E) opts fn <> Throw _ reason).
Proof. split; [reflexivity | intros reason; discriminate]. Qed.

(** C7. A call whose number of arguments differs from [f.length] is
    rejected in the block of the call itself with the [InvalidArity] error;
    [f] is not invoked, the cache, the queue and the suspended leaders are
    as before, and the rejection is the same whatever the cache and the
    queue hold (they are not read). *)
Theorem invalid_arity_rejected w (args : list Value) (now : Time) :
  List.length args <> f_length (f (memo w)) ->
  exists w',
    step w (Call args now) = Some w' /\
    settled w' = (settled w ++
      [(calls w, Rejected (InvalidArity (List.length args) (f_length (f (memo w)))))])%list /\
    invoked w' = invoked w /\
    memo w' = memo w /\
    leaders w' = leaders w /\
    (forall m c, f m = f (memo w) ->
       memoized (E:=E) m c args now
       = (m, Rejects (InvalidArity (List.length args) (f_length (f (memo w)))))).
Proof.
  intros Hlen.
  assert (forall m c, f m = f (memo w) ->
    memoized (E:=E) m c args now
    = (m, Rejects (InvalidArity (List.length args) (f_length (f (memo w)))))) as Hany.
  { intros m c Hf. unfold memoized. rewrite Hf.
    destruct (Nat.eqb_spec (f_length (f (memo w))) (List.length args)); [congruence|done]. }
  eexists. split; [reflexivity|]. unfold call. simpl.
  rewrite (Hany (memo w) (calls w) eq_refl). simpl. done.
Qed.

(** C9. [clear_cache()] empties the cache, so that [cache_size()] is 0, and
    changes nothing else: the queue and the suspended leaders are as
    before. A leader suspended at the time of the clear, with the calls
    waiting for it, settles afterwards as it would have without the clear:
    every waiter and the leader receive the outcome of [f]. *)
Theorem clear_cache_keeps_in_flight w :
  exists w',
    step w ClearCache = Some w' /\
    cache_size (memo w') = 0%nat /\
    queue (memo w') = queue (memo w) /\
    leaders w' = leaders w /\
    invoked w' = invoked w /\
    settled w' = settled w /\
    (forall c key handlers,
       leader_key c w = Some key -> queue (memo w) !! key = Some handlers ->
       (forall result now, exists w2,
          step w' (Fulfil c result now) = Some w2 /\
          settled w2 = (settled w ++ ((fun h => (h, Resolved result)) <$> handlers)
                          ++ [(c, Resolved result)])%list) /\
       (forall err, exists w2,
          step w' (Fail c err) = Some w2 /\
          settled w2 = (settled w ++ ((fun h => (h, Rejected (Thrown err))) <$> handlers)
                          ++ [(c, Rejected (Thrown err))])%list)).
Proof.
  eexists. split; [reflexivity|]. split_and!; try done.
  intros c key handlers Hl Hq. split.
  - intros result now. eexists. split.
    + simpl. unfold leader_key in *. simpl. rewrite Hl. reflexivity.
    + by rewrite (resume_fulfilled_settled _ _ _ _ _ handlers).
  - intros err. eexists. split.
    + simpl. unfold leader_key in *. simpl. rewrite Hl. reflexivity.
    + by rewrite (resume_rejected_settled _ _ _ _ handlers).
Qed.


End Claims.

Section Leaders.
Context {R E : Type} {host : Host}.
Implicit Types (w : World R E) (m : Memoized R) (o : Outcome R E).
Implicit Types (c h : CallId) (key k : string).

Lemma consistent_leader_lt w c :
  consistent w -> c ∈ (fst <$> leaders w) -> (c < calls w)%nat.
Proof.
  intros Hw Hc.
  assert (c ∈ seq 0 (calls w)) as Hin.
  { rewrite <- (accounted w Hw). unfold pending. rewrite !elem_of_app. by left; left. }
  apply list_elem_of_In, in_seq in Hin. lia.
Qed.

Lemma find_new_leader (l : list (CallId * string)) c key :
  c ∉ (fst <$> l) ->
  snd <$> List.find (fun x => Nat.eqb (fst x) c) (l ++ [(c, key)]) = Some key.
Proof.
  induction l as [|[c0 k0] l IH]; simpl.
  - intros _. by rewrite Nat.eqb_refl.
  - rewrite not_elem_of_cons. intros [Hne Hl].
    destruct (Nat.eqb_spec c0 c); [congruence|]. by apply IH.
Qed.

(** The call that finds [key] idle: [f] is invoked with its arguments, it
    is suspended as the leader of [key], and its promise is pending. *)
Lemma call_leads key bound w args now :
  consistent w -> idle key bound w -> JSON.stringify args = key ->
  List.length args = f_length (f (memo w)) -> bound <= now ->
  exists w',
    step w (Call args now) = Some w' /\
    invoked w' = (invoked w ++ [args])%list /\
    settled w' = settled w /\
    leader_key (calls w) w' = Some key /\
    queue (memo w') !! key = Some [] /\
    cache (memo w') = cache (memo w).
Proof.
  intros Hw Hidle Hkey Hlen Hnow. eexists. split; [reflexivity|].
  unfold call. cbn [memo calls tick].
  rewrite (idle_call key bound w args now Hidle Hkey Hlen Hnow).
  split_and!; try done.
  - unfold leader_key. simpl. apply find_new_leader.
    intros Hin. apply (consistent_leader_lt w _ Hw) in Hin. lia.
  - simpl. apply lookup_insert_eq.
Qed.

(** The call that finds an entry of its key that has not expired: it
    returns the value of the entry; [f] is not invoked. *)
Lemma call_hits w args now v :
  List.length args = f_length (f (memo w)) ->
  cached (memo w) (JSON.stringify args) now = Some v ->
  exists w',
    step w (Call args now) = Some w' /\
    invoked w' = invoked w /\
    settled w' = (settled w ++ [(calls w, Resolved v)])%list /\
    memo w' = memo w /\
    leaders w' = leaders w.
Proof.
  intros Hlen Hv. eexists. split; [reflexivity|].
  unfold call. cbn [memo calls tick].
  destruct (memoized_inv (E:=E) (memo w) (calls w) args now); try congruence.
  injection (eq_trans (eq_sym Hv) H0) as <-. done.
Qed.

End Leaders.

Section ClaimsOnTime.
Context {R E : Type} {host : Host}.
Implicit Types (w : World R E) (m : Memoized R) (o : Outcome R E).
Implicit Types (c h : CallId) (key k : string).


(** C6. When [f] rejects, the leader of [key] stores nothing: the cache
    after lines 94-104 is the cache before them, and the cache after the
    leader's call (lines 45-72) was the cache before it. The record of
    [key] is removed from the queue and the leader is gone. The next call
    of [key], made when the clock has not gone back behind the time of the
    failure, finds no entry to return and no record to wait on: it invokes
    [f] again and is the new leader of [key]. *)
Theorem failure_is_not_cached w c key (err : E) :
  reachable w ->
  leader_key c w = Some key ->
  exists w1,
    step w (Fail c err) = Some w1 /\
    cache (memo w1) = cache (memo w) /\
    queue (memo w1) !! key = None /\
    (key ∉ (snd <$> leaders w1)) /\
    (forall (w0 : World R E) args now,
       cache (memo (call args now w0)) = cache (memo w0)) /\
    (forall mid w2 args now,
       Forall (fun ev => calls_key key ev = false) mid ->
       run w1 mid = Some w2 ->
       JSON.stringify args = key ->
       List.length args = f_length (f (memo w)) ->
       clock w <= now ->
       exists w3,
         step w2 (Call args now) = Some w3 /\
         invoked w3 = (invoked w2 ++ [args])%list /\
         settled w3 = settled w2 /\
         leader_key (calls w2) w3 = Some key).
Proof.
  intros Hreach Hl.
  pose proof (reachable_consistent w Hreach) as Hw.
  destruct (step w (Fail c err)) as [w1|] eqn:Hstep;
    [|simpl in Hstep; by rewrite Hl in Hstep].
  pose proof (consistent_step _ _ _ Hw Hstep) as Hw1.
  pose proof (step_options _ _ _ Hstep) as [Ho Hf].
  simpl in Hstep. rewrite Hl in Hstep. injection Hstep as Hw1eq.
  assert (memo w1 = set_queue (memo w) (delete key (queue (memo w)))) as Hm1.
  { rewrite <- Hw1eq. by rewrite resume_rejected_memo. }
  assert (queue (memo w1) !! key = None) as Hq1.
  { rewrite Hm1. simpl. apply lookup_delete_eq. }
  assert (key ∈ (snd <$> leaders w)) as Hin.
  { apply find_leader in Hl. apply list_elem_of_fmap. by exists (c, key). }
  exists w1. split_and!; [done|by rewrite Hm1|done| |intros; apply call_cache|].
  - rewrite (in_flight w1 Hw1), Hq1. by intros [].
  - intros mid w2 args now Hmid Hrun Hkey Hlen Hnow.
    assert (idle key (clock w) w1) as Hidle.
    { split; [done|]. intros entry He. rewrite Hm1 in He. simpl in He.
      by apply (stale w Hw key). }
    pose proof (idle_run key (clock w) mid w1 w2 Hw1 Hmid Hrun Hidle) as Hidle2.
    pose proof (consistent_run mid w1 w2 Hw1 Hrun) as Hw2.
    pose proof (run_options mid w1 w2 Hrun) as [_ Hf2].
    destruct (call_leads key (clock w) w2 args now) as (w3 & ? & ? & ? & ? & _); try done.
    + congruence.
    + eauto.
Qed.

End ClaimsOnTime.

Section ClaimsOnEviction.
Context {R E : Type} {host : Host}.
Implicit Types (w : World R E) (m : Memoized R) (o : Outcome R E).
Implicit Types (c h : CallId) (key k : string).

Lemma store_size key (result : R) now m :
  1 <= maxSize m ->
  Z.of_nat (cache_size m) <= maxSize m ->
  Z.of_nat (cache_size (store key result now m)) <= maxSize m.
Proof.
  unfold cache_size, store, maxSize. simpl. intros Hpos Hle.
  rewrite JsMap_size_set.
  destruct (Z.leb_spec (size (options m)) (Z.of_nat (JsMap.size (cache m)))) as [Hfull|Hroom].
  - rewrite JsMap_delete_first.
    destruct (cache m) as [|[k0 e0] rest]; unfold JsMap.size in *; simpl in *; [lia|].
    destruct (JsMap.get rest key); lia.
  - destruct (JsMap.get (cache m) key); lia.
Qed.

Lemma bounded_step w ev w' :
  1 <= maxSize (memo w) ->
  Z.of_nat (cache_size (memo w)) <= maxSize (memo w) ->
  step w ev = Some w' ->
  Z.of_nat (cache_size (memo w')) <= maxSize (memo w').
Proof.
  intros Hpos Hle Hstep. pose proof (step_options _ _ _ Hstep) as [Ho _].
  unfold maxSize in *. rewrite Ho.
  destruct ev as [args now|c result now|c err|]; simpl in Hstep.
  - injection Hstep as <-. unfold cache_size. by rewrite call_cache.
  - destruct (leader_key c w); [|done]. injection Hstep as <-.
    rewrite resume_fulfilled_memo. by apply store_size.
  - destruct (leader_key c w); [|done]. injection Hstep as <-.
    by rewrite resume_rejected_memo.
  - injection Hstep as <-. unfold cache_size. simpl. lia.
Qed.

Lemma bounded_run evs : forall w w',
  1 <= maxSize (memo w) ->
  Z.of_nat (cache_size (memo w)) <= maxSize (memo w) ->
  run w evs = Some w' ->
  Z.of_nat (cache_size (memo w')) <= maxSize (memo w').
Proof.
  induction evs as [|ev evs IH]; simpl; intros w w' Hpos Hle.
  - by intros [= <-].
  - destruct (step w ev) as [w1|] eqn:Hs; [|done]. simpl.
    pose proof (step_options _ _ _ Hs) as [Ho _].
    apply IH; [unfold maxSize in *; by rewrite Ho | by eapply bounded_step].
Qed.

(** C2, as amended. When a leader stores a result under [key] and the
    cache holds [size] entries or more, the first key of the cache, the one
    inserted longest ago, is evicted before the store, whether or not
    [key] is in the cache already: if the first key is another key than
    [key], it is gone afterwards, also when the store only replaces an
    entry of [key] that is present. Every key other than the first key
    and [key] keeps its entry, and [key] has the new entry. *)
Theorem full_cache_evicts_first_key w c key (result : R) (now : Time) :
  reachable w ->
  leader_key c w = Some key ->
  maxSize (memo w) <= Z.of_nat (cache_size (memo w)) ->
  exists w',
    step w (Fulfil c result now) = Some w' /\
    JsMap.get (cache (memo w')) key
      = Some {| value := result; expiry := Date.expires now (ttl (options (memo w))) |} /\
    (forall oldestKey,
       JsMap.first_key (cache (memo w)) = Some oldestKey -> oldestKey <> key ->
       JsMap.get (cache (memo w')) oldestKey = None) /\
    (forall k,
       k <> key -> JsMap.first_key (cache (memo w)) <> Some k ->
       JsMap.get (cache (memo w')) k = JsMap.get (cache (memo w)) k).
Proof.
  intros Hreach Hl Hfull.
  pose proof (cache_keys w (reachable_consistent w Hreach)) as Hnd.
  eexists. split; [simpl; rewrite Hl; reflexivity|].
  rewrite resume_fulfilled_memo. unfold store, cache_size in *. simpl.
  apply Z.leb_le in Hfull. rewrite Hfull.
  split_and!.
  - apply JsMap_get_set_eq.
  - intros oldestKey Hfirst Hne. rewrite JsMap_get_set_ne by done.
    rewrite Hfirst. simpl. by apply JsMap_get_delete_eq.
  - intros k Hne Hfirst. rewrite JsMap_get_set_ne by done.
    destruct (JsMap.first_key (cache (memo w))) as [k0|]; simpl; [|done].
    apply JsMap_get_delete_ne. congruence.
Qed.

(** C5. A memoizer made with [size >= 1] never holds more than [size]
    entries: after every run, [cache_size()] is at most [size]. When the
    cache holds [size] entries and a leader stores a key that is not in the
    cache, the cache loses one entry, its first one, the one inserted
    longest ago, and the new entry goes to the end. A call never changes
    the cache, so reading an entry does not change its place. *)
Theorem cache_bounded_and_fifo (opts : Options) (fn : Func) m evs w :
  1 <= size opts ->
  memoize_async (R:=R) (E:=E) opts fn = Normal _ m ->
  run (start m) evs = Some w ->
  Z.of_nat (cache_size (memo w)) <= size opts /\
  (forall c key result now,
     leader_key c w = Some key ->
     Z.of_nat (cache_size (memo w)) = size opts ->
     JsMap.get (cache (memo w)) key = None ->
     exists w' oldestKey entry rest,
       step w (Fulfil c result now) = Some w' /\
       cache (memo w) = (oldestKey, entry) :: rest /\
       cache (memo w')
         = (rest ++ [(key, {| value := result; expiry := Date.expires now (ttl opts) |})])%list) /\
  (forall args now w',
     step w (Call args now) = Some w' -> cache (memo w') = cache (memo w)).
Proof.
  intros Hpos [= <-] Hrun.
  pose proof (run_options evs _ _ Hrun) as [Ho _]. simpl in Ho.
  split_and!.
  - pose proof (bounded_run evs _ w
      (Hpos : 1 <= maxSize (memo (start (E:=E)
                {| options := opts; f := fn; cache := []; queue := ∅ |})))) as Hb.
    unfold maxSize in Hb. rewrite Ho in Hb. apply Hb; [|done].
    unfold cache_size. simpl. lia.
  - intros c key result now Hl Hfull Hget.
    destruct (cache (memo w)) as [|[oldestKey entry] rest] eqn:Hcache.
    { unfold cache_size in Hfull. rewrite Hcache in Hfull. simpl in Hfull. lia. }
    eexists _, oldestKey, entry, rest.
    split; [simpl; rewrite Hl; reflexivity|]. split; [done|].
    rewrite resume_fulfilled_memo. unfold store, maxSize. simpl. rewrite Ho, Hcache.
    unfold cache_size in Hfull. rewrite Hcache in Hfull.
    replace (size opts <=? Z.of_nat (JsMap.size ((oldestKey, entry) :: rest))) with true
      by (symmetry; apply Z.leb_le; lia).
    rewrite JsMap_delete_first. simpl in *.
    destruct (decide (key = oldestKey)); [done|].
    by apply JsMap_set_absent.
  - intros args now w' [= <-]. by rewrite call_cache.
Qed.

End ClaimsOnEviction.

(** C3. [JSON.stringify] does not tell apart all argument lists of
    primitive values: the number [NaN] and [undefined] are different
    arguments with the same key, and so are the two infinities, because a
    number that is not finite is written [null], as [undefined] is. The
    number 1 and the string of the digit 1 do have different keys. *)
Theorem stringify_writes_null_for_several_values :
  JSON.stringify [VNumber NaN] = JSON.stringify [VUndefined] /\
  [VNumber NaN] <> [VUndefined] /\
  JSON.stringify [VNumber (Infinity false)] = JSON.stringify [VNumber (Infinity true)] /\
  [VNumber (Infinity false)] <> [VNumber (Infinity true)] /\
  JSON.stringify [VNumber (Finite 1)] <> JSON.stringify [VString "1"].
Proof. split_and!; [reflexivity | discriminate | reflexivity | discriminate | discriminate]. Qed.

(** * One flight and the calls that join it *)

Section Flight.
Context {R E : Type} {host : Host}.
Implicit Types (w : World R E) (m : Memoized R) (o : Outcome R E).
Implicit Types (c h : CallId) (key k : string).

Lemma find_leader_app (l l' : list (CallId * string)) c key :
  snd <$> List.find (fun x => Nat.eqb (fst x) c) l = Some key ->
  snd <$> List.find (fun x => Nat.eqb (fst x) c) (l ++ l') = Some key.
Proof.
  induction l as [|[c0 k0] l IH]; simpl; [done|].
  by destruct (Nat.eqb c0 c).
Qed.

Lemma find_leader_filter (l : list (CallId * string)) c c' :
  c' <> c ->
  List.find (fun x => Nat.eqb (fst x) c)
    (List.filter (fun x => negb (Nat.eqb (fst x) c')) l)
  = List.find (fun x => Nat.eqb (fst x) c) l.
Proof.
  intros Hne. induction l as [|[c0 k0] l IH]; simpl; [done|].
  destruct (Nat.eqb_spec c0 c') as [->|Hc0]; simpl.
  - destruct (Nat.eqb_spec c' c); [done|]. apply IH.
  - by rewrite IH.
Qed.

Lemma call_calls args now w : calls (call args now w) = S (calls w).
Proof.
  unfold call. by destruct (memoized (memo w) (calls w) args now) as [m []].
Qed.

Lemma call_leaders args now w c key :
  leader_key c w = Some key -> leader_key c (call args now w) = Some key.
Proof.
  unfold call, leader_key.
  destruct (memoized (memo w) (calls w) args now) as [m []]; simpl; try done.
  apply find_leader_app.
Qed.

Lemma one_leader_per_key (l : list (CallId * string)) c c' key :
  NoDup (snd <$> l) -> (c, key) ∈ l -> (c', key) ∈ l -> c = c'.
Proof.
  induction l as [|[c0 k0] l IH]; simpl.
  - intros _ []%elem_of_nil.
  - intros [Hk0 Hl]%NoDup_cons [H1|H1]%elem_of_cons [H2|H2]%elem_of_cons.
    + congruence.
    + injection H1 as -> ->. exfalso. apply Hk0.
      apply list_elem_of_fmap. by exists (c', k0).
    + injection H2 as -> ->. exfalso. apply Hk0.
      apply list_elem_of_fmap. by exists (c, k0).
    + by apply IH.
Qed.

Lemma asks_spec (fn : Func) key (args : list Value) :
  asks fn key args = true <->
  List.length args = f_length fn /\ JSON.stringify args = key.
Proof.
  unfold asks. rewrite andb_true_iff, Nat.eqb_eq, bool_decide_eq_true. intuition.
Qed.

(** While the leader [c0] of [key] is suspended, a step that does not
    settle it leaves it suspended; a call that asks for [key] and misses the
    cache is pushed on the record of [key]; no step invokes [f] for [key]. *)
Lemma flight_step w ev w' c0 key hs :
  consistent w ->
  leader_key c0 w = Some key ->
  queue (memo w) !! key = Some hs ->
  settles c0 ev = false ->
  misses key w [ev] ->
  step w ev = Some w' ->
  leader_key c0 w' = Some key /\
  queue (memo w') !! key = Some (hs ++ askers (f (memo w)) key (calls w) [ev])%list /\
  invoked_for key w' = invoked_for key w /\
  (forall evs, askers (f (memo w)) key (calls w) (ev :: evs)
               = (askers (f (memo w)) key (calls w) [ev]
                  ++ askers (f (memo w')) key (calls w') evs)%list).
Proof.
  intros Hw Hl Hq Hev [Hmiss _] Hstep.
  pose proof (step_options _ _ _ Hstep) as [_ Hf].
  destruct ev as [args now|c result now|c err|]; simpl in Hstep, Hev.
  - injection Hstep as <-. split_and!.
    + by apply call_leaders.
    + rewrite call_memo. cbn [memo calls tick askers].
      destruct (asks (f (memo w)) key args) eqn:Hasks.
      * specialize (Hmiss eq_refl). apply asks_spec in Hasks as [Hlen Hkey].
        destruct (memoized_inv (E:=E) (memo w) (calls w) args now)
          as [Hne|v _ Hv|hs' _ _ Hhs'|]; try congruence.
        simpl. rewrite Hkey. rewrite Hkey in Hhs'.
        rewrite lookup_insert_eq. congruence.
      * simpl. rewrite app_nil_r.
        destruct (memoized_inv (E:=E) (memo w) (calls w) args now)
          as [Hne|v Hlen Hv|hs' Hlen _ Hhs'|Hlen _ _]; simpl; try done.
        -- rewrite lookup_insert_ne; [done|]. intros Hkey.
           assert (asks (f (memo w)) key args = true) by (apply asks_spec; done).
           congruence.
        -- rewrite lookup_insert_ne; [done|]. intros Hkey.
           assert (asks (f (memo w)) key args = true) by (apply asks_spec; done).
           congruence.
    + unfold invoked_for, call. cbn [memo calls tick invoked].
      pose proof (memoized_inv (E:=E) (memo w) (calls w) args now) as Hc.
      destruct (memoized (memo w) (calls w) args now) as [m s].
      inversion Hc as [| | |Hlen Hmiss' Hnone]; subst; simpl; try done.
      rewrite List.filter_app. simpl.
      rewrite bool_decide_eq_false_2; [by rewrite app_nil_r|].
      intros Hkey. rewrite Hkey in Hnone. congruence.
    + intros evs. cbn [askers]. rewrite call_calls. simpl.
      rewrite Hf. by rewrite app_nil_r.
  - destruct (leader_key c w) as [key'|] eqn:Hl'; [|done]. injection Hstep as <-.
    apply Nat.eqb_neq in Hev.
    assert (key' <> key) as Hne.
    { intros ->. apply find_leader in Hl, Hl'.
      apply Hev. eapply (one_leader_per_key _ c c0 key); [apply (one_leader w Hw)|done|done]. }
    destruct (resume_fulfilled_rest c key' result now (wake c (tick now w)))
      as (_ & Hcalls & Hleaders & Hinv).
    split_and!.
    + unfold leader_key. rewrite Hleaders. simpl. by rewrite find_leader_filter.
    + rewrite resume_fulfilled_memo. simpl.
      rewrite lookup_delete_ne by done. by rewrite app_nil_r.
    + unfold invoked_for. by rewrite Hinv.
    + intros evs. cbn [askers app]. by rewrite Hf, Hcalls.
  - destruct (leader_key c w) as [key'|] eqn:Hl'; [|done]. injection Hstep as <-.
    apply Nat.eqb_neq in Hev.
    assert (key' <> key) as Hne.
    { intros ->. apply find_leader in Hl, Hl'.
      apply Hev. eapply (one_leader_per_key _ c c0 key); [apply (one_leader w Hw)|done|done]. }
    destruct (resume_rejected_rest c key' err (wake c w))
      as (_ & Hcalls & Hleaders & Hinv).
    split_and!.
    + unfold leader_key. rewrite Hleaders. simpl. by rewrite find_leader_filter.
    + rewrite resume_rejected_memo. simpl.
      rewrite lookup_delete_ne by done. by rewrite app_nil_r.
    + unfold invoked_for. by rewrite Hinv.
    + intros evs. cbn [askers app]. by rewrite Hf, Hcalls.
  - injection Hstep as <-. split_and!; simpl; try done. by rewrite app_nil_r.
Qed.


Lemma flight_run c0 key evs : forall w w1 hs,
  consistent w ->
  leader_key c0 w = Some key ->
  queue (memo w) !! key = Some hs ->
  Forall (fun ev => settles c0 ev = false) evs ->
  misses key w evs ->
  run w evs = Some w1 ->
  consistent w1 /\
  leader_key c0 w1 = Some key /\
  queue (memo w1) !! key = Some (hs ++ askers (f (memo w)) key (calls w) evs)%list /\
  invoked_for key w1 = invoked_for key w.
Proof.
  induction evs as [|ev evs IH]; intros w w1 hs Hw Hl Hq Hevs Hmiss Hrun.
  - injection Hrun as <-. simpl. by rewrite app_nil_r.
  - apply Forall_cons in Hevs as [Hev Hevs]. simpl in Hrun. destruct Hmiss as [Hm1 Hm2].
    destruct (step w ev) as [w'|] eqn:Hstep; [|done]. simpl in Hrun.
    destruct (flight_step w ev w' c0 key hs) as (Hl' & Hq' & Hi' & Hask); try done.
    { simpl. rewrite Hstep. split; [exact Hm1 | exact I]. }
    destruct (IH w' w1 _ (consistent_step _ _ _ Hw Hstep) Hl' Hq' Hevs Hm2 Hrun)
      as (Hw1 & Hl1 & Hq1 & Hi1).
    split_and!; [done|done| |congruence].
    rewrite Hq1, (Hask evs). by rewrite <- app_assoc.
Qed.

Lemma outcomes_unsettled c w : c ∉ (fst <$> settled w) -> outcomes c w = [].
Proof.
  unfold outcomes. induction (settled w) as [|[c' o'] l IH]; simpl; [done|].
  rewrite not_elem_of_cons. intros [Hne Hl].
  destruct (Nat.eqb_spec c' c); [congruence|]. by apply IH.
Qed.

Lemma outcomes_tagged o (l : list CallId) c :
  NoDup l -> c ∈ l ->
  snd <$> List.filter (fun s : CallId * Outcome R E => Nat.eqb (fst s) c)
            ((fun h => (h, o)) <$> l) = [o].
Proof.
  induction l as [|h l IH]; simpl.
  - intros _ []%elem_of_nil.
  - intros [Hh Hl]%NoDup_cons [->|Hc]%elem_of_cons.
    + rewrite Nat.eqb_refl. simpl. f_equal.
      clear IH. induction l as [|h' l IH]; simpl; [done|].
      apply not_elem_of_cons in Hh as [Hne Hh]. apply NoDup_cons in Hl as [_ Hl].
      destruct (Nat.eqb_spec h' h); [congruence|]. by apply IH.
    + destruct (Nat.eqb_spec h c) as [->|]; [done|]. by apply IH.
Qed.

(** In a consistent world the leader [c0] of [key] and the calls [hs]
    waiting for it are distinct calls, none of them settled. *)
Lemma flight_pending w c0 key hs :
  consistent w ->
  leader_key c0 w = Some key ->
  queue (memo w) !! key = Some hs ->
  NoDup (hs ++ [c0]) /\
  forall c, c ∈ c0 :: hs -> c ∈ (hs ++ [c0])%list /\ outcomes c w = [].
Proof.
  intros Hw Hl Hq.
  pose proof (consistent_distinct w Hw) as Hd. unfold pending in Hd.
  apply find_leader in Hl.
  assert (c0 ∈ (fst <$> leaders w)) as Hc0.
  { apply list_elem_of_fmap. by exists (c0, key). }
  rewrite (waiting_delete _ _ _ Hq) in Hd.
  apply NoDup_app in Hd as (Hp & Hdisj & _).
  apply NoDup_app in Hp as (_ & Hdisj2 & Hwait).
  apply NoDup_app in Hwait as (Hhs & _ & _).
  split.
  - apply NoDup_app. split_and!; [done| |apply NoDup_singleton].
    intros x Hx ->%list_elem_of_singleton.
    apply (Hdisj2 c0 Hc0). apply elem_of_app. by left.
  - intros c Hc. split.
    + apply elem_of_cons in Hc as [->|Hc]; apply elem_of_app; [right; left|by left].
    + apply outcomes_unsettled, Hdisj. apply elem_of_cons in Hc as [->|Hc].
      * apply elem_of_app. by left.
      * apply elem_of_app. right. apply elem_of_app. by left.
Qed.

Lemma outcomes_app c w w2 (l : list (CallId * Outcome R E)) :
  settled w2 = (settled w ++ l)%list ->
  outcomes c w2
  = (outcomes c w ++ (snd <$> List.filter (fun s => Nat.eqb (fst s) c) l))%list.
Proof. unfold outcomes. intros ->. by rewrite List.filter_app, fmap_app. Qed.

(** When they are sent the outcome [o], it is the one outcome each of them
    has received. *)
Lemma flight_settles w w2 c0 key hs o :
  consistent w ->
  leader_key c0 w = Some key ->
  queue (memo w) !! key = Some hs ->
  settled w2 = (settled w ++ ((fun h => (h, o)) <$> hs) ++ [(c0, o)])%list ->
  forall c, c ∈ c0 :: hs -> outcomes c w2 = [o].
Proof.
  intros Hw Hl Hq Hs c Hc.
  destruct (flight_pending w c0 key hs Hw Hl Hq) as [Hnd Hall].
  destruct (Hall c Hc) as [Hin Hnil].
  rewrite (outcomes_app c w w2 _ Hs), Hnil. simpl.
  replace (((fun h => (h, o)) <$> hs) ++ [(c0, o)])%list
    with ((fun h => (h, o)) <$> (hs ++ [c0])%list) by by rewrite fmap_app.
  by apply outcomes_tagged.
Qed.

(** C1. The calls of one key that are made while no entry of the key is in
    the cache unexpired and while [f] has not settled are served by one
    invocation of [f]. From a world in which no call of [f] is outstanding
    for [key], take a call that asks for [key], followed by any events
    [rest] that do not settle the promise this call awaits; let every call
    of the run that asks for [key] find no unexpired entry. Then [f] has
    been invoked once for [key], with the arguments of the first call, and
    none of these calls is settled. When the promise of [f] fulfils, each
    of them receives its result, and nothing else; when it rejects, each of
    them is rejected with the value [f] rejected with, and nothing else. *)
Theorem concurrent_calls_share_one_invocation w key (args : list Value) (now : Time)
  (rest : list (Event R E)) w1 :
  reachable w ->
  queue (memo w) !! key = None ->
  asks (f (memo w)) key args = true ->
  Forall (fun ev => settles (calls w) ev = false) rest ->
  misses key w (Call args now :: rest) ->
  run w (Call args now :: rest) = Some w1 ->
  let callers := askers (f (memo w)) key (calls w) (Call args now :: rest) in
  invoked_for key w1 = (invoked_for key w ++ [args])%list /\
  (forall c, c ∈ callers -> outcomes c w1 = []) /\
  (forall result t, exists w2,
     step w1 (Fulfil (calls w) result t) = Some w2 /\
     invoked w2 = invoked w1 /\
     forall c, c ∈ callers -> outcomes c w2 = [Resolved result]) /\
  (forall err, exists w2,
     step w1 (Fail (calls w) err) = Some w2 /\
     invoked w2 = invoked w1 /\
     forall c, c ∈ callers -> outcomes c w2 = [Rejected (Thrown err)]).
Proof.
  intros Hreach Hq Hasks Hrest Hmiss Hrun callers.
  pose proof (reachable_consistent w Hreach) as Hw.
  destruct Hmiss as [Hmiss0 Hmiss].
  specialize (Hmiss0 Hasks).
  apply asks_spec in Hasks as Hargs. destruct Hargs as [Hlen Hkey].
  assert (idle key now w) as Hidle.
  { split; [done|]. by apply cached_None. }
  destruct (call_leads key now w args now Hw Hidle Hkey Hlen ltac:(lia))
    as (w0 & Hstep & Hinv0 & Hset0 & Hl0 & Hq0 & _).
  pose proof (consistent_step _ _ _ Hw Hstep) as Hw0.
  pose proof (step_options _ _ _ Hstep) as [_ Hf0].
  rewrite Hstep in Hmiss. cbn [run] in Hrun. rewrite Hstep in Hrun. simpl in Hrun.
  assert (calls w0 = S (calls w)) as Hcalls0.
  { injection Hstep as <-. by rewrite call_calls. }
  destruct (flight_run (calls w) key rest w0 w1 [] Hw0 Hl0 Hq0 Hrest Hmiss Hrun)
    as (Hw1 & Hl1 & Hq1 & Hinv1).
  rewrite Hf0, Hcalls0 in Hq1. simpl in Hq1.
  assert (callers = calls w :: askers (f (memo w)) key (S (calls w)) rest) as Hcallers.
  { subst callers. cbn [askers]. by rewrite Hasks. }
  rewrite Hcallers. clear Hcallers callers.
  split_and!.
  - rewrite Hinv1. unfold invoked_for. rewrite Hinv0, List.filter_app. simpl.
    by rewrite bool_decide_eq_true_2.
  - intros c Hc.
    destruct (flight_pending w1 (calls w) key _ Hw1 Hl1 Hq1) as [_ Hall].
    by apply Hall.
  - intros result t. eexists. split; [simpl; rewrite Hl1; reflexivity|].
    split; [by destruct (resume_fulfilled_rest (calls w) key result t
                           (wake (calls w) (tick t w1))) as (_ & _ & _ & ->)|].
    intros c Hc.
    eapply (flight_settles w1 _ (calls w) key _ _ Hw1 Hl1 Hq1); [|done].
    by rewrite (resume_fulfilled_settled (calls w) key result t
                  (wake (calls w) (tick t w1)) _ Hq1).
  - intros err. eexists. split; [simpl; rewrite Hl1; reflexivity|].
    split; [by destruct (resume_rejected_rest (calls w) key err
                           (wake (calls w) w1)) as (_ & _ & _ & ->)|].
    intros c Hc.
    eapply (flight_settles w1 _ (calls w) key _ _ Hw1 Hl1 Hq1); [|done].
    by rewrite (resume_rejected_settled (calls w) key err (wake (calls w) w1) _ Hq1).
Qed.

End Flight.

(** * Keys: what [JSON.stringify] tells apart *)

Section Keys.






















End Keys.


(** * What every run keeps *)

Section Runs.
Context {R E : Type} {host : Host}.
Implicit Types (w : World R E) (m : Memoized R) (o : Outcome R E).
Implicit Types (c h : CallId) (key k : string).

Lemma waiting_inv (q : gmap string (list CallId)) c :
  c ∈ waiting q -> exists k hs, q !! k = Some hs /\ c ∈ hs.
Proof.
  unfold waiting. intros Hc. apply list_elem_of_In, in_concat in Hc as (hs & Hhs & Hc).
  apply list_elem_of_In, list_elem_of_fmap in Hhs as ([k hs'] & -> & Hk).
  apply elem_of_map_to_list in Hk. exists k, hs'. split; [done|]. by apply list_elem_of_In.
Qed.

Lemma outcomes_settled c w :
  outcomes c w = [] <-> c ∉ (fst <$> settled w).
Proof.
  split; [|apply outcomes_unsettled].
  unfold outcomes. induction (settled w) as [|[c' o'] l IH]; simpl.
  - intros _. apply not_elem_of_nil.
  - destruct (Nat.eqb_spec c' c) as [->|Hne]; simpl; [done|].
    intros H. apply not_elem_of_cons. split; [done | by apply IH].
Qed.

Lemma filter_unsettled (l : list (CallId * Outcome R E)) c :
  c ∉ (fst <$> l) -> List.filter (fun s => Nat.eqb (fst s) c) l = [].
Proof.
  induction l as [|[c' o'] l IH]; simpl; [done|].
  rewrite not_elem_of_cons. intros [Hne Hl].
  destruct (Nat.eqb_spec c' c); [congruence|]. by apply IH.
Qed.

Lemma outcomes_once c w :
  NoDup (fst <$> settled w) -> (List.length (outcomes c w) <= 1)%nat.
Proof.
  unfold outcomes. induction (settled w) as [|[c' o'] l IH]; simpl; [lia|].
  intros [Hc' Hl]%NoDup_cons. destruct (Nat.eqb_spec c' c) as [->|Hne].
  - rewrite filter_unsettled by done. simpl. lia.
  - by apply IH.
Qed.

(** X2. Single flight. In every world of a run no two suspended leaders
    have the same key, and the keys that have a record in [queue] are the
    keys of the suspended leaders: for each key at most one call of [f] is
    outstanding, and a record exists exactly while it is. *)
Theorem one_flight_per_key w :
  reachable w ->
  NoDup (snd <$> leaders w) /\
  (forall key, is_Some (queue (memo w) !! key) <-> key ∈ (snd <$> leaders w)) /\
  (forall c c' key, leader_key c w = Some key -> leader_key c' w = Some key -> c = c').
Proof.
  intros Hw%reachable_consistent. split_and!.
  - apply (one_leader w Hw).
  - intros key. symmetry. apply (in_flight w Hw).
  - intros c c' key Hc Hc'. apply find_leader in Hc, Hc'.
    by eapply (one_leader_per_key (leaders w) c c' key), Hc'; [apply (one_leader w Hw)|].
Qed.

(** X3. No promise is settled twice or lost. In every world of a run each
    call has received at most one outcome; a call that has received none is
    suspended as a leader or waits in the record of a key whose leader is
    suspended; and such a call has indeed received none. *)
Theorem every_call_settles_once w :
  reachable w ->
  (forall c, (List.length (outcomes c w) <= 1)%nat) /\
  (forall c, (c < calls w)%nat -> outcomes c w = [] ->
     (exists key, leader_key c w = Some key) \/
     (exists key handlers leader,
        queue (memo w) !! key = Some handlers /\ c ∈ handlers /\
        leader_key leader w = Some key)) /\
  (forall c, c ∈ pending w -> outcomes c w = [] /\ (c < calls w)%nat).
Proof.
  intros Hw%reachable_consistent.
  pose proof (consistent_distinct w Hw) as Hd.
  pose proof (consistent_leader_ids w Hw) as Hids.
  apply NoDup_app in Hd as (Hp & Hdisj & Hs).
  split_and!.
  - intros c. by apply outcomes_once.
  - intros c Hc Hnone. apply outcomes_settled in Hnone.
    assert (c ∈ pending w) as Hpend.
    { assert (c ∈ (pending w ++ (fst <$> settled w))%list) as Hin.
      { rewrite (accounted w Hw). apply list_elem_of_In, in_seq. lia. }
      apply elem_of_app in Hin as [?|?]; done. }
    unfold pending in Hpend. apply elem_of_app in Hpend as [Hl|Hq].
    + left. apply list_elem_of_fmap in Hl as ([c0 key] & -> & Hin). exists key.
      by apply find_leader_NoDup.
    + right. apply waiting_inv in Hq as (key & hs & Hk & Hh).
      assert (key ∈ (snd <$> leaders w)) as Hkey.
      { apply (in_flight w Hw). eauto. }
      apply list_elem_of_fmap in Hkey as ([leader key'] & -> & Hin).
      exists key', hs, leader. split_and!; [done|done|]. by apply find_leader_NoDup.
  - intros c Hc. split.
    + apply outcomes_settled. by apply Hdisj.
    + assert (c ∈ seq 0 (calls w)) as Hin.
      { rewrite <- (accounted w Hw). apply elem_of_app. by left. }
      apply list_elem_of_In, in_seq in Hin. lia.
Qed.

(** X4. While the call of [f] for a key is outstanding, a further call of the
    key, made when the clock has not gone back, waits for it: it is not
    answered from the cache, it does not invoke [f], and its handlers go to
    the end of the record of the key. *)
Theorem call_during_flight_waits w key (handlers : list CallId) (args : list Value)
  (now : Time) :
  reachable w ->
  queue (memo w) !! key = Some handlers ->
  JSON.stringify args = key ->
  List.length args = f_length (f (memo w)) ->
  clock w <= now ->
  cached (memo w) key now = None /\
  exists w',
    step w (Call args now) = Some w' /\
    queue (memo w') !! key = Some (handlers ++ [calls w])%list /\
    invoked w' = invoked w /\
    settled w' = settled w /\
    leaders w' = leaders w /\
    cache (memo w') = cache (memo w).
Proof.
  intros Hw%reachable_consistent Hq Hkey Hlen Hnow. subst key.
  assert (cached (memo w) (JSON.stringify args) now = None) as Hmiss.
  { apply cached_None. intros entry He.
    apply (expired_later _ (clock w)); [|done].
    apply (stale w Hw (JSON.stringify args)); [|done]. apply (in_flight w Hw). eauto. }
  split; [done|]. eexists. split; [reflexivity|].
  unfold call. cbn [memo calls tick leaders invoked settled clock].
  destruct (memoized_inv (E:=E) (memo w) (calls w) args now)
    as [Hne|v _ Hv|hs _ _ Hhs|_ _ Hnone]; try congruence.
  rewrite Hq in Hhs. injection Hhs as <-.
  simpl. split_and!; try done. apply lookup_insert_eq.
Qed.

End Runs.


(** * Options at and beyond their bounds *)

Section Bounds.
Context {R E : Type} {host : Host}.
Implicit Types (w : World R E) (m : Memoized R) (o : Outcome R E).
Implicit Types (c h : CallId) (key k : string).

Lemma store_alone key (result : R) now m :
  maxSize m <= 0 ->
  (cache_size m <= 1)%nat ->
  cache (store key result now m)
  = [(key, {| value := result; expiry := Date.expires now (ttl (options m)) |})].
Proof.
  unfold store, cache_size, maxSize. intros Hsize Hone. simpl.
  replace (size (options m) <=? Z.of_nat (JsMap.size (cache m))) with true
    by (symmetry; apply Z.leb_le; lia).
  rewrite JsMap_delete_first.
  destruct (cache m) as [|[k0 e0] [|[k1 e1] rest]]; simpl in *; [done|done|].
  unfold JsMap.size in Hone. simpl in Hone. lia.
Qed.

Lemma one_entry_step w ev w' :
  maxSize (memo w) <= 0 ->
  (cache_size (memo w) <= 1)%nat ->
  step w ev = Some w' ->
  (cache_size (memo w') <= 1)%nat.
Proof.
  intros Hsize Hone Hstep.
  destruct ev as [args now|c result now|c err|]; simpl in Hstep.
  - injection Hstep as <-. unfold cache_size. by rewrite call_cache.
  - destruct (leader_key c w); [|done]. injection Hstep as <-.
    rewrite resume_fulfilled_memo. unfold cache_size. simpl.
    change (JsMap.size (cache (store s result now (memo w))) <= 1)%nat.
    by rewrite store_alone.
  - destruct (leader_key c w); [|done]. injection Hstep as <-.
    by rewrite resume_rejected_memo.
  - injection Hstep as <-. unfold cache_size. simpl. unfold JsMap.size. simpl. lia.
Qed.

Lemma one_entry_run evs : forall w w',
  maxSize (memo w) <= 0 ->
  (cache_size (memo w) <= 1)%nat ->
  run w evs = Some w' ->
  (cache_size (memo w') <= 1)%nat.
Proof.
  induction evs as [|ev evs IH]; simpl; intros w w' Hsize Hone.
  - by intros [= <-].
  - destruct (step w ev) as [w1|] eqn:Hs; [|done]. simpl.
    pose proof (step_options _ _ _ Hs) as [Ho _].
    apply IH; [unfold maxSize in *; by rewrite Ho | by eapply one_entry_step].
Qed.

(** X5. A memoizer made with a [size] of zero or less is not without a
    cache: line 74 finds the cache full at every store, evicts what there is
    and stores the new entry. After every run the cache holds one entry at
    most, and after a store exactly the entry just stored. *)
Theorem nonpositive_size_keeps_last_result (opts : Options) (fn : Func) m evs w :
  size opts <= 0 ->
  memoize_async (R:=R) (E:=E) opts fn = Normal _ m ->
  run (start m) evs = Some w ->
  (cache_size (memo w) <= 1)%nat /\
  (forall c key result now,
     leader_key c w = Some key ->
     exists w',
       step w (Fulfil c result now) = Some w' /\
       cache (memo w')
         = [(key, {| value := result; expiry := Date.expires now (ttl opts) |})]).
Proof.
  intros Hsize [= <-] Hrun.
  pose proof (run_options evs _ _ Hrun) as [Ho _]. simpl in Ho.
  assert (cache_size (memo w) <= 1)%nat as Hone.
  { apply (one_entry_run evs (start {| options := opts; f := fn; cache := []; queue := ∅ |}) w); [done| |done]. unfold cache_size. simpl.
    unfold JsMap.size. simpl. lia. }
  split; [done|]. intros c key result now Hl.
  eexists. split; [simpl; rewrite Hl; reflexivity|].
  rewrite resume_fulfilled_memo. simpl.
  change (cache (store key result now (memo w)) = [(key, {| value := result; expiry := Date.expires now (ttl opts) |})]).
  rewrite store_alone; [by rewrite Ho| |done]. unfold maxSize. by rewrite Ho.
Qed.

Lemma expires_invalid (now : Time) (seconds : spec_float) :
  Num.is_finite seconds = false -> Date.expires now seconds = InvalidDate.
Proof.
  intros Hs. unfold Date.expires, Date.setSeconds, Date.MakeTime.
  assert (Num.is_finite (Num.add (Num.of_Z (Date.getSeconds now)) seconds) = false) as ->.
  { unfold Num.add. destruct (Num.of_Z (Date.getSeconds now)) as [|[|]| |], seconds as [|[|]| |];
      done. }
  reflexivity.
Qed.

Lemma invalid_step w ev w' :
  Num.is_finite (ttl (options (memo w))) = false ->
  consistent w ->
  (forall k entry, JsMap.get (cache (memo w)) k = Some entry -> expiry entry = InvalidDate) ->
  step w ev = Some w' ->
  forall k entry, JsMap.get (cache (memo w')) k = Some entry -> expiry entry = InvalidDate.
Proof.
  intros Httl Hw Hold Hstep k entry.
  destruct ev as [args now|c result now|c err|]; simpl in Hstep.
  - injection Hstep as <-. rewrite call_cache. simpl. apply Hold.
  - destruct (leader_key c w) as [key|]; [|done]. injection Hstep as <-.
    rewrite resume_fulfilled_memo. simpl.
    destruct (decide (key = k)) as [->|Hne].
    + change (JsMap.get (cache (store k result now (memo w))) k = Some entry ->
              expiry entry = InvalidDate).
      rewrite store_get_eq. intros [= <-]. simpl. by apply expires_invalid.
    + intros He.
      apply (store_get_ne key result now (memo w)) in He; [|apply (cache_keys w Hw)|done].
      by apply (Hold k).
  - destruct (leader_key c w) as [key|]; [|done]. injection Hstep as <-.
    rewrite resume_rejected_memo. simpl. apply Hold.
  - injection Hstep as <-. simpl. done.
Qed.

Lemma invalid_run evs : forall w w',
  Num.is_finite (ttl (options (memo w))) = false ->
  consistent w ->
  (forall k entry, JsMap.get (cache (memo w)) k = Some entry -> expiry entry = InvalidDate) ->
  run w evs = Some w' ->
  forall k entry, JsMap.get (cache (memo w')) k = Some entry -> expiry entry = InvalidDate.
Proof.
  induction evs as [|ev evs IH]; simpl; intros w w' Httl Hw Hold.
  - by intros [= <-].
  - destruct (step w ev) as [w1|] eqn:Hs; [|done]. simpl.
    pose proof (step_options _ _ _ Hs) as [Ho _].
    apply IH; [by rewrite Ho | by eapply consistent_step | by eapply invalid_step].
Qed.

(** X6. A memoizer made with a [ttl] that is not a finite number, [Infinity]
    or [NaN], never answers from its cache: [setSeconds] makes the expiry of
    every entry the Invalid Date, which is after no date. Whenever it is
    made, a call with the declared number of arguments waits for the
    outstanding call of [f] for its key, if there is one, and otherwise
    invokes [f]. *)
Theorem invalid_expiry_is_never_served (opts : Options) (fn : Func) m evs w
  (args : list Value) (now : Time) :
  Num.is_finite (ttl opts) = false ->
  memoize_async (R:=R) (E:=E) opts fn = Normal _ m ->
  run (start m) evs = Some w ->
  List.length args = f_length fn ->
  (forall k entry, JsMap.get (cache (memo w)) k = Some entry -> expiry entry = InvalidDate) /\
  cached (memo w) (JSON.stringify args) now = None /\
  exists w',
    step w (Call args now) = Some w' /\
    settled w' = settled w /\
    (queue (memo w) !! JSON.stringify args = None ->
     invoked w' = (invoked w ++ [args])%list) /\
    (is_Some (queue (memo w) !! JSON.stringify args) -> invoked w' = invoked w).
Proof.
  intros Httl [= <-] Hrun Hlen.
  pose proof (run_options evs _ _ Hrun) as [Ho Hf]. simpl in Ho, Hf.
  assert (forall k entry,
            JsMap.get (cache (memo w)) k = Some entry -> expiry entry = InvalidDate) as Hinv.
  { apply (invalid_run evs (start {| options := opts; f := fn; cache := []; queue := ∅ |}) w
             Httl (consistent_start
                     {| options := opts; f := fn; cache := []; queue := ∅ |} eq_refl eq_refl)
             ltac:(intros ? ? [=]) Hrun). }
  assert (cached (memo w) (JSON.stringify args) now = None) as Hmiss.
  { apply cached_None. intros entry He. by rewrite (Hinv _ _ He). }
  split; [done|]. split; [done|]. eexists. split; [reflexivity|].
  unfold call. cbn [memo calls tick].
  destruct (memoized_inv (E:=E) (memo w) (calls w) args now)
    as [Hne|v _ Hv|hs _ _ Hhs|_ _ Hnone]; simpl.
  - rewrite Hf in Hne. done.
  - congruence.
  - split_and!; [done| |done]. rewrite Hhs. done.
  - split_and!; [done|done|]. rewrite Hnone. by intros [? ?].
Qed.

Lemma arity_run evs : forall w w',
  Forall (fun args => List.length args = f_length (f (memo w))) (invoked w) ->
  (List.length (invoked w) <= calls w)%nat ->
  run w evs = Some w' ->
  Forall (fun args => List.length args = f_length (f (memo w'))) (invoked w') /\
  (List.length (invoked w') <= calls w')%nat.
Proof.
  induction evs as [|ev evs IH]; simpl; intros w w' Hall Hle.
  - by intros [= <-].
  - destruct (step w ev) as [w1|] eqn:Hs; [|done]. simpl.
    pose proof (step_options _ _ _ Hs) as [_ Hf]. apply IH; rewrite ?Hf.
    + destruct ev as [args now|c result now|c err|]; simpl in Hs.
      * injection Hs as <-. unfold call. cbn [memo calls tick invoked].
        destruct (memoized_inv (E:=E) (memo w) (calls w) args now); simpl; try done.
        apply Forall_app. split; [done|]. by apply Forall_singleton.
      * destruct (leader_key c w) as [key|]; [|done]. injection Hs as <-.
        by destruct (resume_fulfilled_rest c key result now (wake c (tick now w)))
          as (_ & _ & _ & ->).
      * destruct (leader_key c w) as [key|]; [|done]. injection Hs as <-.
        by destruct (resume_rejected_rest c key err (wake c w)) as (_ & _ & _ & ->).
      * by injection Hs as <-.
    + destruct ev as [args now|c result now|c err|]; simpl in Hs.
      * injection Hs as <-. rewrite call_calls. unfold call. cbn [memo calls tick invoked].
        destruct (memoized_inv (E:=E) (memo w) (calls w) args now); simpl;
          rewrite ?length_app; simpl; lia.
      * destruct (leader_key c w) as [key|]; [|done]. injection Hs as <-.
        destruct (resume_fulfilled_rest c key result now (wake c (tick now w)))
          as (_ & -> & _ & ->). simpl. done.
      * destruct (leader_key c w) as [key|]; [|done]. injection Hs as <-.
        destruct (resume_rejected_rest c key err (wake c w)) as (_ & -> & _ & ->).
        simpl. done.
      * by injection Hs as <-.
Qed.

(** X7. In every world of a run, [f] has been invoked only with argument
    lists of its declared length, and not more often than the memoized
    function has been called. *)
Theorem f_is_invoked_with_its_arity w :
  reachable w ->
  Forall (fun args => List.length args = f_length (f (memo w))) (invoked w) /\
  (List.length (invoked w) <= calls w)%nat.
Proof.
  intros (opts & fn & m & evs & [= <-] & Hrun).
  apply (arity_run evs (start {| options := opts; f := fn; cache := []; queue := ∅ |}) w); [apply Forall_nil_2 | simpl; lia | done].
Qed.

End Bounds.


(** * Reading, replacing and clearing *)

Section Reads.
Context {R E : Type} {host : Host}.
Implicit Types (w : World R E) (m : Memoized R) (o : Outcome R E).
Implicit Types (c h : CallId) (key k : string).

(** X8. Calls that find an entry of their key that has not expired are
    answered with its value one after the other, however many they are:
    [f] is not invoked, and the memoizer is left as it was, so that reading
    an entry neither delays its expiry nor moves it in the cache. *)
Theorem hits_leave_the_memoizer_alone (args : list Value) (v : R) (times : list Time) :
  forall w,
  List.length args = f_length (f (memo w)) ->
  Forall (fun now => cached (memo w) (JSON.stringify args) now = Some v) times ->
  exists w',
    run w ((fun now => Call args now) <$> times) = Some w' /\
    memo w' = memo w /\
    invoked w' = invoked w /\
    leaders w' = leaders w /\
    settled w'
      = (settled w ++ ((fun c => (c, Resolved v)) <$> seq (calls w) (List.length times)))%list.
Proof.
  induction times as [|now times IH]; intros w Hlen Hall.
  - exists w. split_and!; try done. simpl. by rewrite app_nil_r.
  - apply Forall_cons in Hall as [Hnow Hall].
    destruct (call_hits w args now v Hlen Hnow) as (w1 & Hstep & Hi & Hs & Hm & Hl).
    destruct (IH w1) as (w' & Hrun & Hm' & Hi' & Hl' & Hs').
    + by rewrite Hm.
    + by rewrite Hm.
    + exists w'. split_and!; try congruence.
      * change (step w (Call args now)
                  ≫= (fun w1 => run w1 ((fun now => Call args now) <$> times)) = Some w').
        rewrite Hstep. exact Hrun.
      * rewrite Hs', Hs.
        assert (calls w1 = S (calls w)) as ->.
        { injection Hstep as <-. by rewrite call_calls. }
        simpl. by rewrite <- app_assoc.
Qed.



(** X10. After [clear_cache()], a call of a key for which no call of [f] is
    outstanding invokes [f], whatever the cache held and whenever the call
    is made. *)
Theorem clear_cache_forces_invocation w key (args : list Value) (now : Time) :
  reachable w ->
  queue (memo w) !! key = None ->
  JSON.stringify args = key ->
  List.length args = f_length (f (memo w)) ->
  exists w',
    run w [ClearCache; Call args now] = Some w' /\
    invoked w' = (invoked w ++ [args])%list /\
    settled w' = settled w /\
    leader_key (calls w) w' = Some key.
Proof.
  intros Hw%reachable_consistent Hq Hkey Hlen.
  assert (idle key now (set_memo w (clear_cache (memo w)))) as Hidle.
  { split; [done|]. intros entry He. simpl in He. done. }
  destruct (call_leads key now (set_memo w (clear_cache (memo w))) args now
              (consistent_clear w Hw) Hidle Hkey Hlen (Z.le_refl now))
    as (w' & Hstep & Hi & Hs & Hl & _).
  exists w'. split_and!; [|done|done|done].
  transitivity (step (set_memo w (clear_cache (memo w))) (Call args now));
    [reflexivity | exact Hstep].
Qed.

End Reads.

(** * Whole numbers in the arithmetic of numbers *)

Section Whole.

Lemma digits2_log2 p : Zpos (digits2_pos p) = Z.log2 (Zpos p) + 1.
Proof.
  assert (digits2_pos p = Pos.size p) as -> by (induction p; simpl; congruence).
  destruct p; simpl; lia.
Qed.

Lemma iter_xO_spec d : forall m, Zpos (Pos.iter xO m d) = Zpos m * 2 ^ Zpos d.
Proof.
  induction d as [|d IH] using Pos.peano_ind; intros m.
  - simpl. lia.
  - rewrite Pos.iter_succ, Pos2Z.inj_xO, IH, Pos2Z.inj_succ, Z.pow_succ_r; lia.
Qed.

Lemma shr_exact n : forall m,
  SpecFloat.iter_pos shr_1 n {| shr_m := Zpos (Pos.iter xO m n); shr_r := false; shr_s := false |}
  = {| shr_m := Zpos m; shr_r := false; shr_s := false |}.
Proof.
  induction n as [n IH|n IH|]; intros m; simpl.
  - by rewrite !IH.
  - by rewrite !IH.
  - done.
Qed.

Lemma round_aux_exact s mc e n m :
  Z.log2 (Zpos mc) = 52 -> 0 <= n -> -1074 <= e + n <= 971 ->
  Zpos m = Zpos mc * 2 ^ n ->
  binary_round_aux 53 1024 s (Zpos m) e loc_Exact = S754_finite s mc (e + n).
Proof.
  intros Hmc Hn He Hm.
  assert (Z.log2 (Zpos m) = n + 52) as Hlog.
  { rewrite Hm, Z.log2_mul_pow2 by lia. lia. }
  unfold binary_round_aux, shr_fexp. cbn [Zdigits2 shr_record_of_loc].
  rewrite digits2_log2, Hlog.
  assert (fexp 53 1024 (n + 52 + 1 + e) - e = n) as ->.
  { unfold fexp, emin. lia. }
  assert (shr {| shr_m := Zpos m; shr_r := false; shr_s := false |} e n
          = ({| shr_m := Zpos mc; shr_r := false; shr_s := false |}, e + n)) as ->.
  { destruct n as [|p|p]; [| |lia].
    - simpl. rewrite Z.add_0_r. do 3 f_equal. lia.
    - simpl. assert (m = Pos.iter xO mc p) as ->.
      { apply Pos2Z.inj. by rewrite iter_xO_spec. }
      by rewrite shr_exact. }
  cbn [shr_m loc_of_shr_record round_nearest_even Zdigits2 shr_record_of_loc].
  rewrite digits2_log2, Hmc.
  assert (fexp 53 1024 (52 + 1 + (e + n)) - (e + n) = 0) as ->.
  { unfold fexp, emin. lia. }
  cbn [shr shr_m].
  destruct (Z.leb_spec (e + n) (1024 - 53)); [done | lia].
Qed.

Lemma whole_mantissa v :
  1 <= v < 2 ^ 53 ->
  Z.log2 (Zpos (Z.to_pos (v * 2 ^ (52 - Z.log2 v)))) = 52 /\
  Zpos (Z.to_pos (v * 2 ^ (52 - Z.log2 v))) = v * 2 ^ (52 - Z.log2 v) /\
  0 <= Z.log2 v <= 52.
Proof.
  intros Hv.
  assert (0 <= Z.log2 v <= 52) as Hl.
  { split; [apply Z.log2_nonneg|]. apply Z.lt_succ_r, Z.log2_lt_pow2; lia. }
  assert (0 < v * 2 ^ (52 - Z.log2 v)) as Hpos.
  { apply Z.mul_pos_pos; [lia|]. apply Z.pow_pos_nonneg; lia. }
  rewrite Z2Pos.id by done. split; [|by split].
  rewrite Z.log2_mul_pow2 by lia. lia.
Qed.

(** Rounding a whole number below 2^53, however it is scaled, gives the
    number itself. *)
Lemma round_exact s v j m :
  1 <= v < 2 ^ 53 -> 0 <= j <= 1000 -> Zpos m = v * 2 ^ j ->
  binary_round 53 1024 s m (- j) = Num.whole s v.
Proof.
  intros Hv Hj Hm. destruct (whole_mantissa v Hv) as (Hlog & Hmc & Hl).
  unfold binary_round, Num.whole.
  assert (Z.log2 (Zpos m) = j + Z.log2 v) as Hlm.
  { rewrite Hm, Z.log2_mul_pow2 by lia. done. }
  rewrite digits2_log2, Hlm.
  assert (fexp 53 1024 (j + Z.log2 v + 1 + - j) = Z.log2 v - 52) as ->.
  { unfold fexp, emin. lia. }
  unfold shl_align.
  destruct (Z.log2 v - 52 - - j) as [|p|p] eqn:Hd.
  - rewrite (round_aux_exact s (Z.to_pos (v * 2 ^ (52 - Z.log2 v))) (- j) 0 m);
      [f_equal; lia|done|lia|lia|].
    rewrite Hmc, Hm. replace (52 - Z.log2 v) with j by lia. lia.
  - rewrite (round_aux_exact s (Z.to_pos (v * 2 ^ (52 - Z.log2 v))) (- j) (Zpos p) m);
      [f_equal; lia|done|lia|lia|].
    rewrite Hmc, Hm. rewrite <- Z.mul_assoc, <- Z.pow_add_r by lia.
    do 2 f_equal. lia.
  - assert (Pos.iter xO m p = Z.to_pos (v * 2 ^ (52 - Z.log2 v))) as Hshift.
    { apply Pos2Z.inj. rewrite Hmc, iter_xO_spec, Hm.
      rewrite <- Z.mul_assoc, <- Z.pow_add_r by lia. do 2 f_equal. lia. }
    rewrite (round_aux_exact s (Z.to_pos (v * 2 ^ (52 - Z.log2 v))) (Z.log2 v - 52) 0
               (Pos.iter xO m p)); [f_equal; lia|done|lia|lia|].
    rewrite Hshift. lia.
Qed.

Lemma of_Z_zero : Num.of_Z 0 = S754_zero false.
Proof. reflexivity. Qed.

Lemma of_Z_whole z :
  z <> 0 -> Z.abs z < 2 ^ 53 -> Num.of_Z z = Num.whole (z <? 0) (Z.abs z).
Proof.
  intros Hz Hb. unfold Num.of_Z, Num.prec, Num.emax.
  destruct z as [|p|p]; [done| |]; simpl binary_normalize.
  - apply (round_exact false (Zpos p) 0 p); lia.
  - apply (round_exact true (Zpos p) 0 p); lia.
Qed.

(** What [binary_normalize] makes of a whole number that is scaled. *)
Lemma normalize_exact S j v :
  Z.abs v < 2 ^ 53 -> 0 <= j <= 1000 -> S = v * 2 ^ j ->
  binary_normalize 53 1024 S (- j) false = Num.of_Z v.
Proof.
  intros Hv Hj HS.
  assert (0 < 2 ^ j) as Hp by (apply Z.pow_pos_nonneg; lia).
  destruct (Z.eq_dec v 0) as [->|Hne]; [by subst S|].
  rewrite of_Z_whole by done.
  destruct S as [|m|m]; simpl binary_normalize.
  - nia.
  - assert (0 < v) by nia.
    replace (v <? 0) with false by (symmetry; apply Z.ltb_ge; lia).
    apply round_exact; [lia|lia|]. rewrite Z.abs_eq by lia. done.
  - assert (v < 0) by nia.
    replace (v <? 0) with true by (symmetry; apply Z.ltb_lt; lia).
    apply round_exact; [lia|lia|]. rewrite Z.abs_neq by lia. lia.
Qed.

End Whole.

Section WholeArithmetic.

Lemma signed_abs z : Num.signed (z <? 0) (Z.abs z) = z.
Proof. unfold Num.signed. destruct (Z.ltb_spec z 0); lia. Qed.

Lemma shl_align_spec mx ex ez :
  ez <= ex -> Zpos (fst (shl_align mx ex ez)) = Zpos mx * 2 ^ (ex - ez).
Proof.
  intros Hle. unfold shl_align. destruct (ez - ex) as [|p|p] eqn:Hd; simpl.
  - replace (ex - ez) with 0 by lia. lia.
  - lia.
  - rewrite iter_xO_spec. do 2 f_equal. lia.
Qed.

Lemma whole_aligned s v ez :
  1 <= v < 2 ^ 53 -> ez <= Z.log2 v - 52 ->
  cond_Zopp s (Zpos (fst (shl_align (Z.to_pos (v * 2 ^ (52 - Z.log2 v))) (Z.log2 v - 52) ez)))
  = Num.signed s v * 2 ^ (- ez).
Proof.
  intros Hv Hez. destruct (whole_mantissa v Hv) as (_ & Hmc & Hl).
  rewrite shl_align_spec, Hmc by done.
  rewrite <- Z.mul_assoc, <- Z.pow_add_r by lia.
  replace (52 - Z.log2 v + (Z.log2 v - 52 - ez)) with (- ez) by lia.
  unfold Num.signed, cond_Zopp. destruct s; lia.
Qed.

Lemma whole_exponent v : 1 <= v < 2 ^ 53 -> -52 <= Z.log2 v - 52 <= 0.
Proof. intros Hv. destruct (whole_mantissa v Hv) as (_ & _ & Hl). lia. Qed.

Lemma add_whole sa va sb vb :
  1 <= va < 2 ^ 53 -> 1 <= vb < 2 ^ 53 ->
  Z.abs (Num.signed sa va + Num.signed sb vb) < 2 ^ 53 ->
  Num.add (Num.whole sa va) (Num.whole sb vb) = Num.of_Z (Num.signed sa va + Num.signed sb vb).
Proof.
  intros Ha Hb Hab.
  pose proof (whole_exponent va Ha) as Hea. pose proof (whole_exponent vb Hb) as Heb.
  unfold Num.add, Num.whole, Num.prec, Num.emax, SFadd.
  set (ez := Z.min (Z.log2 va - 52) (Z.log2 vb - 52)).
  rewrite !whole_aligned by (done || lia).
  replace ez with (- - ez) at 3 by lia.
  apply normalize_exact; [done|lia|lia].
Qed.

Lemma sub_whole sa va sb vb :
  1 <= va < 2 ^ 53 -> 1 <= vb < 2 ^ 53 ->
  Z.abs (Num.signed sa va - Num.signed sb vb) < 2 ^ 53 ->
  Num.sub (Num.whole sa va) (Num.whole sb vb) = Num.of_Z (Num.signed sa va - Num.signed sb vb).
Proof.
  intros Ha Hb Hab.
  pose proof (whole_exponent va Ha) as Hea. pose proof (whole_exponent vb Hb) as Heb.
  unfold Num.sub, Num.whole, Num.prec, Num.emax, SFsub.
  set (ez := Z.min (Z.log2 va - 52) (Z.log2 vb - 52)).
  rewrite !whole_aligned by (done || lia).
  replace ez with (- - ez) at 3 by lia.
  apply normalize_exact; [done|lia|lia].
Qed.

(** Sums, differences and products of whole numbers are exact as long as
    they stay below 2^53. *)
Lemma add_of_Z a b :
  Z.abs a < 2 ^ 53 -> Z.abs b < 2 ^ 53 -> Z.abs (a + b) < 2 ^ 53 ->
  Num.add (Num.of_Z a) (Num.of_Z b) = Num.of_Z (a + b).
Proof.
  intros Ha Hb Hab.
  destruct (Z.eq_dec a 0) as [->|Hna], (Z.eq_dec b 0) as [->|Hnb].
  - reflexivity.
  - rewrite Z.add_0_l, of_Z_zero, of_Z_whole by done. reflexivity.
  - rewrite Z.add_0_r, of_Z_zero, of_Z_whole by done. reflexivity.
  - rewrite (of_Z_whole a), (of_Z_whole b) by done.
    rewrite add_whole; rewrite ?signed_abs; (done || lia).
Qed.

Lemma sub_of_Z a b :
  Z.abs a < 2 ^ 53 -> Z.abs b < 2 ^ 53 -> Z.abs (a - b) < 2 ^ 53 ->
  Num.sub (Num.of_Z a) (Num.of_Z b) = Num.of_Z (a - b).
Proof.
  intros Ha Hb Hab.
  destruct (Z.eq_dec a 0) as [->|Hna], (Z.eq_dec b 0) as [->|Hnb].
  - reflexivity.
  - rewrite Z.sub_0_l, of_Z_zero, !of_Z_whole by lia.
    unfold Num.sub, Num.whole. simpl SFsub.
    rewrite Z.abs_opp. f_equal. destruct (Z.ltb_spec b 0), (Z.ltb_spec (- b) 0); done || lia.
  - rewrite Z.sub_0_r, of_Z_zero, of_Z_whole by done. reflexivity.
  - rewrite (of_Z_whole a), (of_Z_whole b) by done.
    rewrite sub_whole; rewrite ?signed_abs; (done || lia).
Qed.

Lemma mul_of_Z a b :
  Z.abs a < 2 ^ 53 -> 0 < b < 2 ^ 53 -> Z.abs (a * b) < 2 ^ 53 ->
  Num.mul (Num.of_Z a) (Num.of_Z b) = Num.of_Z (a * b).
Proof.
  intros Ha Hb Hab.
  destruct (Z.eq_dec a 0) as [->|Hna].
  - rewrite Z.mul_0_l, of_Z_zero, of_Z_whole by lia.
    replace (b <? 0) with false by (symmetry; apply Z.ltb_ge; lia). reflexivity.
  - assert (a * b <> 0) as Hnab by nia.
    rewrite (of_Z_whole a), (of_Z_whole b), (of_Z_whole (a * b)) by lia.
    assert (1 <= Z.abs a < 2 ^ 53) as Hva by lia.
    assert (1 <= Z.abs b < 2 ^ 53) as Hvb by lia.
    assert (1 <= Z.abs (a * b) < 2 ^ 53) as Hvab by lia.
    destruct (whole_mantissa _ Hva) as (_ & Hma & Hla).
    destruct (whole_mantissa _ Hvb) as (_ & Hmb & Hlb).
    destruct (whole_mantissa _ Hvab) as (Hlog & Hmab & Hlab).
    assert (Z.log2 (Z.abs a) + Z.log2 (Z.abs b) <= Z.log2 (Z.abs (a * b))) as Hbelow.
    { rewrite Z.abs_mul. apply Z.log2_mul_below; lia. }
    unfold Num.mul, Num.whole, Num.prec, Num.emax, SFmul.
    rewrite (round_aux_exact _ (Z.to_pos (Z.abs (a * b) * 2 ^ (52 - Z.log2 (Z.abs (a * b)))))
               _ (52 + Z.log2 (Z.abs (a * b)) - Z.log2 (Z.abs a) - Z.log2 (Z.abs b)));
      [|done|lia|clear -Hla Hlb Hlab Hbelow; lia|].
    + f_equal; [|lia].
      destruct (Z.ltb_spec a 0), (Z.ltb_spec b 0), (Z.ltb_spec (a * b) 0); simpl; done || nia.
    + rewrite Pos2Z.inj_mul, Hma, Hmb, Hmab.
      set (la := Z.log2 (Z.abs a)) in *. set (lb := Z.log2 (Z.abs b)) in *.
      set (lab := Z.log2 (Z.abs (a * b))) in *.
      assert (2 ^ (52 - lab) * 2 ^ (52 + lab - la - lb) = 2 ^ (52 - la) * 2 ^ (52 - lb))
        as Hp by (rewrite <- !Z.pow_add_r by lia; f_equal; lia).
      rewrite Z.abs_mul, <- !Z.mul_assoc, Hp. ring.
Qed.

Lemma is_finite_of_Z z : Z.abs z < 2 ^ 53 -> Num.is_finite (Num.of_Z z) = true.
Proof.
  intros Hz. destruct (Z.eq_dec z 0) as [->|Hne]; [done|].
  by rewrite of_Z_whole.
Qed.

Lemma truncate_of_Z z : Z.abs z < 2 ^ 53 -> Num.truncate (Num.of_Z z) = z.
Proof.
  intros Hz. destruct (Z.eq_dec z 0) as [->|Hne]; [done|].
  rewrite of_Z_whole by done.
  assert (1 <= Z.abs z < 2 ^ 53) as Hv by lia.
  destruct (whole_mantissa _ Hv) as (_ & Hm & Hl).
  unfold Num.whole, Num.truncate. rewrite Hm.
  assert ((if Z.ltb z 0 then - Z.abs z else Z.abs z) = z) as Hs.
  { destruct (Z.ltb_spec z 0); lia. }
  destruct (Z.log2 (Z.abs z) - 52) as [|p|p] eqn:He.
  - replace (52 - Z.log2 (Z.abs z)) with 0 by lia. rewrite Z.mul_1_r. done.
  - lia.
  - replace (52 - Z.log2 (Z.abs z)) with (- Z.neg p) by lia.
    rewrite Z.div_mul; [done|]. apply Z.pow_nonzero; lia.
Qed.

End WholeArithmetic.

Section WholeDates.
Context {host : Host}.

Lemma TimeClip_of_Z z :
  Z.abs z <= 8640000000000000 -> Date.TimeClip (Num.of_Z z) = TimeValue z.
Proof.
  intros Hz.
  assert (Z.abs z < 2 ^ 53) as Hb by (change (2 ^ 53) with 9007199254740992; lia).
  unfold Date.TimeClip. rewrite is_finite_of_Z, truncate_of_Z by done.
  change (Num.of_Z 8640000000000000) with (S754_finite false 8640000000000000 0).
  destruct (Z.eq_dec z 0) as [->|Hne]; [done|].
  rewrite of_Z_whole by done.
  assert (1 <= Z.abs z < 2 ^ 53) as Hv by lia.
  destruct (whole_mantissa _ Hv) as (_ & Hm & Hl).
  unfold Num.whole, SFabs, SFltb, SFcompare.
  destruct (Z.compare_spec 0 (Z.log2 (Z.abs z) - 52)) as [He|He|He]; [|lia|done].
  change (Pos.compare_cont Eq ?p ?q) with (Pos.compare p q).
  rewrite Pos2Z.inj_compare, Hm.
  replace (52 - Z.log2 (Z.abs z)) with 0 by lia. rewrite Z.mul_1_r.
  destruct (Z.compare_spec 8640000000000000 (Z.abs z)); done || lia.
Qed.

(** The fields of a time value make up the time value. *)
Lemma time_fields (t : Time) :
  Date.Day t * Date.msPerDay
  + (Date.HourFromTime t * Date.msPerHour + Date.MinFromTime t * Date.msPerMinute
     + Date.SecFromTime t * Date.msPerSecond + Date.msFromTime t) = t /\
  0 <= Date.HourFromTime t < 24 /\ 0 <= Date.MinFromTime t < 60 /\
  0 <= Date.SecFromTime t < 60 /\ 0 <= Date.msFromTime t < 1000.
Proof.
  unfold Date.Day, Date.HourFromTime, Date.MinFromTime, Date.SecFromTime, Date.msFromTime,
    Date.msPerDay, Date.msPerHour, Date.msPerMinute, Date.msPerSecond.
  Z.div_mod_to_equations. lia.
Qed.

Lemma MakeTime_whole (hour min sec ms : Z) :
  0 <= hour < 24 -> 0 <= min < 60 -> Z.abs sec <= 2 * 10 ^ 12 -> 0 <= ms < 1000 ->
  Date.MakeTime hour min (Num.of_Z sec) ms
  = Num.of_Z (hour * 3600000 + min * 60000 + sec * 1000 + ms).
Proof.
  intros Hh Hm Hs Hms. change (10 ^ 12) with 1000000000000 in Hs.
  unfold Date.MakeTime, Date.msPerHour, Date.msPerMinute, Date.msPerSecond.
  rewrite is_finite_of_Z, truncate_of_Z by (change (2 ^ 53) with 9007199254740992; lia).
  rewrite !mul_of_Z by (change (2 ^ 53) with 9007199254740992; lia).
  rewrite !add_of_Z by (change (2 ^ 53) with 9007199254740992; lia).
  done.
Qed.

Lemma MakeDate_whole (day time : Z) :
  Z.abs (day * 86400000) < 2 ^ 53 -> Z.abs time < 2 ^ 53 ->
  Z.abs (day * 86400000 + time) < 2 ^ 53 ->
  Date.MakeDate day (Num.of_Z time) = Num.of_Z (day * 86400000 + time).
Proof.
  intros Hd Ht Hsum. unfold Date.MakeDate, Date.msPerDay.
  assert (Z.abs day < 2 ^ 53) as Hday by (change (2 ^ 53) with 9007199254740992 in *; lia).
  rewrite is_finite_of_Z by done.
  rewrite mul_of_Z by (done || change (2 ^ 53) with 9007199254740992; lia).
  rewrite add_of_Z by done.
  by rewrite is_finite_of_Z.
Qed.

(** On a host whose offset from UTC never changes, and for a [ttl] that is
    a whole number of seconds, lines 79-80 compute the time of the store
    plus [ttl] seconds. *)
Lemma expires_whole (tz : Z) (now : Time) (n : Z) :
  (forall t isUTC, LocalTZA t isUTC = tz) ->
  Z.abs tz <= 86400000 ->
  Z.abs now <= 8640000000000000 ->
  Z.abs n <= 10 ^ 12 ->
  Z.abs (now + 1000 * n) <= 8640000000000000 ->
  Date.expires now (Num.of_Z n) = TimeValue (now + 1000 * n).
Proof.
  intros Htz Hoff Hnow Hn Hexp. change (10 ^ 12) with 1000000000000 in Hn.
  unfold Date.expires, Date.getSeconds, Date.setSeconds, Date.LocalTime, Date.UTC.
  rewrite !Htz. set (t := now + tz).
  destruct (time_fields t) as (Ht & Hh & Hm & Hs & Hms).
  unfold Date.msPerDay, Date.msPerHour, Date.msPerMinute, Date.msPerSecond in Ht.
  rewrite add_of_Z by (change (2 ^ 53) with 9007199254740992; lia).
  rewrite MakeTime_whole by (done || change (10 ^ 12) with 1000000000000; lia).
  rewrite MakeDate_whole by (change (2 ^ 53) with 9007199254740992; lia).
  rewrite sub_of_Z by (change (2 ^ 53) with 9007199254740992; lia).
  rewrite TimeClip_of_Z by lia. f_equal. lia.
Qed.

End WholeDates.

Section WholeSeconds.
Context {R : Type} {host : Host}.

(** X12. On a host whose offset from UTC never changes, and for a [ttl] that
    is a whole number of seconds, the entry stored at time [now] expires
    [ttl] seconds later, and the lookup of lines 57-58 returns its value at
    the times before that and at no other time. *)
Theorem whole_ttl_on_fixed_offset (tz : Z) (m : Memoized R) (key : string) (result : R)
  (now : Time) (n : Z) :
  (forall t isUTC, LocalTZA t isUTC = tz) ->
  Z.abs tz <= 86400000 ->
  Z.abs now <= 8640000000000000 ->
  Z.abs n <= 10 ^ 12 ->
  Z.abs (now + 1000 * n) <= 8640000000000000 ->
  ttl (options m) = Num.of_Z n ->
  JsMap.get (cache (store key result now m)) key
    = Some {| value := result; expiry := TimeValue (now + 1000 * n) |} /\
  forall t,
    cached (store key result now m) key t
    = if t <? now + 1000 * n then Some result else None.
Proof.
  intros Htz Hoff Hnow Hn Hexp Httl.
  assert (JsMap.get (cache (store key result now m)) key
          = Some {| value := result; expiry := TimeValue (now + 1000 * n) |}) as Hget.
  { by rewrite store_get_eq, Httl, (expires_whole tz). }
  split; [done|]. intros t. unfold cached. by rewrite Hget.
Qed.

End WholeSeconds.

(** * Where the answers come from *)

Section Sources.
Context {R E : Type} {host : Host}.
Implicit Types (w : World R E) (m : Memoized R) (o : Outcome R E).
Implicit Types (c h : CallId) (key k : string).

Lemma sourced_more (rs rs' : list R) (es es' : list E) w :
  sourced rs es w -> sourced (rs ++ rs') (es ++ es') w.
Proof.
  intros (H1 & H2 & H3 & H4). split_and!; intros; try apply elem_of_app; eauto.
Qed.

Lemma elem_of_tagged o (hs : list CallId) c o' :
  (c, o') ∈ ((fun h => (h, o)) <$> hs) -> o' = o.
Proof. intros (h & [= _ ->] & _)%list_elem_of_fmap. done. Qed.

Lemma elem_of_settle_handlers o handlers w c o' :
  (c, o') ∈ settled (settle_handlers o handlers w) -> (c, o') ∈ settled w \/ o' = o.
Proof.
  destruct handlers as [hs|]; [|by left].
  rewrite settle_handlers_settled, elem_of_app. intros [?|?%elem_of_tagged]; eauto.
Qed.

Lemma sourced_step (rs : list R) (es : list E) w ev w' :
  consistent w -> sourced rs es w -> step w ev = Some w' ->
  sourced (rs ++ fulfilled [ev]) (es ++ failed [ev]) w'.
Proof.
  intros Hw Hs Hstep. pose proof (step_options _ _ _ Hstep) as [_ Hf].
  destruct ev as [args now|c result now|c err|]; simpl in Hstep.
  - injection Hstep as <-. apply sourced_more. destruct Hs as (H1 & H2 & H3 & H4).
    unfold sourced. rewrite call_cache, Hf. unfold call. cbn [memo calls tick settled].
    destruct (memoized_inv (E:=E) (memo w) (calls w) args now)
      as [Hne|v _ Hv|hs _ _ Hhs|_ _ Hnone]; cbn [settled settle]; split_and!; try done.
    + intros c result [?|[=]%list_elem_of_singleton]%elem_of_app. eauto.
    + intros c err [?|[=]%list_elem_of_singleton]%elem_of_app. eauto.
    + intros c message [?|[= _ ->]%list_elem_of_singleton]%elem_of_app; [eauto|].
      by exists (List.length args).
    + intros c result [?|[= _ <-]%list_elem_of_singleton]%elem_of_app; [eauto|].
      apply cached_Some in Hv as (entry & He & <- & _). eauto.
    + intros c err [?|[=]%list_elem_of_singleton]%elem_of_app. eauto.
    + intros c message [?|[=]%list_elem_of_singleton]%elem_of_app. eauto.
  - destruct (leader_key c w) as [key|]; [|done]. injection Hstep as <-.
    destruct Hs as (H1 & H2 & H3 & H4).
    unfold sourced. rewrite Hf, resume_fulfilled_memo, resume_fulfilled_unfold.
    cbn [settled settle memo wake tick fulfilled failed omap]. rewrite app_nil_r.
    split_and!.
    + intros c' r [[?|[= <-]]%elem_of_settle_handlers|[= _ <-]%list_elem_of_singleton]%elem_of_app;
        apply elem_of_app; [left; eauto | right; left | right; left].
    + intros c' e [[?|[=]]%elem_of_settle_handlers|[=]%list_elem_of_singleton]%elem_of_app.
      eauto.
    + intros c' msg [[?|[=]]%elem_of_settle_handlers|[=]%list_elem_of_singleton]%elem_of_app.
      eauto.
    + intros k entry. cbn [cache set_queue].
      destruct (decide (key = k)) as [->|Hne].
      * rewrite store_get_eq. intros [= <-]. apply elem_of_app. right. left.
      * intros He. apply elem_of_app. left. apply (H4 k).
        by apply (store_get_ne key result now (memo w)); [apply (cache_keys w Hw)| |].
  - destruct (leader_key c w) as [key|]; [|done]. injection Hstep as <-.
    destruct Hs as (H1 & H2 & H3 & H4).
    unfold sourced. rewrite Hf, resume_rejected_memo, resume_rejected_unfold.
    cbn [settled settle memo wake fulfilled failed omap]. rewrite app_nil_r.
    split_and!.
    + intros c' r [[?|[=]]%elem_of_settle_handlers|[=]%list_elem_of_singleton]%elem_of_app.
      eauto.
    + intros c' e [[?|[= <-]]%elem_of_settle_handlers|[= _ <-]%list_elem_of_singleton]%elem_of_app;
        apply elem_of_app; [left; eauto | right; left | right; left].
    + intros c' msg [[?|[=]]%elem_of_settle_handlers|[=]%list_elem_of_singleton]%elem_of_app.
      eauto.
    + done.
  - injection Hstep as <-. apply sourced_more. destruct Hs as (H1 & H2 & H3 & H4).
    split_and!; try done.
Qed.

Lemma fulfilled_cons (ev : Event R E) evs :
  fulfilled (ev :: evs) = (fulfilled [ev] ++ fulfilled evs)%list.
Proof. unfold fulfilled. apply (omap_app _ [ev] evs). Qed.

Lemma failed_cons (ev : Event R E) evs :
  failed (ev :: evs) = (failed [ev] ++ failed evs)%list.
Proof. unfold failed. apply (omap_app _ [ev] evs). Qed.

Lemma sourced_run evs : forall (rs : list R) (es : list E) w w',
  consistent w -> sourced rs es w -> run w evs = Some w' ->
  sourced (rs ++ fulfilled evs) (es ++ failed evs) w'.
Proof.
  induction evs as [|ev evs IH]; intros rs es w w' Hw Hs Hrun.
  - injection Hrun as <-. by apply sourced_more.
  - cbn [run] in Hrun. destruct (step w ev) as [w1|] eqn:Hstep; [|done].
    rewrite fulfilled_cons, failed_cons, !app_assoc.
    apply (IH _ _ w1 w');
      [by apply (consistent_step w ev) | by apply (sourced_step rs es w) | done].
Qed.

(** X13. The memoizer makes up no answer. After every run from construction,
    each result a call was answered with and each value in the cache is a
    result a promise of [f] was fulfilled with, each rejection is either the
    error of line 50 for a number of arguments that differs from [f.length]
    or what a promise of [f] was rejected with. *)
Theorem answers_come_from_f (opts : Options) (fn : Func) m evs w :
  memoize_async (R:=R) (E:=E) opts fn = Normal _ m ->
  run (start m) evs = Some w ->
  (forall c result, (c, Resolved result) ∈ settled w -> result ∈ fulfilled evs) /\
  (forall c err, (c, Rejected (Thrown err)) ∈ settled w -> err ∈ failed evs) /\
  (forall c message, (c, Rejected (Error message)) ∈ settled w ->
     exists given,
       given <> f_length fn /\ message = arity_message given (f_length fn)) /\
  (forall key entry,
     JsMap.get (cache (memo w)) key = Some entry -> value entry ∈ fulfilled evs).
Proof.
  intros [= <-] Hrun.
  pose proof (run_options evs _ _ Hrun) as [_ Hf]. simpl in Hf.
  pose proof (sourced_run evs [] [] _ w
                (consistent_start {| options := opts; f := fn; cache := []; queue := ∅ |}
                   eq_refl eq_refl)) as Hs.
  unfold sourced in Hs. rewrite Hf in Hs. simpl in Hs. apply Hs; [|done].
  split_and!; simpl;
    [intros ? ? []%elem_of_nil | intros ? ? []%elem_of_nil | intros ? ? []%elem_of_nil
    | intros ? ? [=]].
Qed.

End Sources.

(** * The claims on concrete runs *)

(** The runs are on the host [Scenario.utc] unless another host is named. *)
#[local] Existing Instance Scenario.utc.

Lemma after_reachable (evs : list (Event nat string)) w :
  run (start Scenario.example) evs = Some w -> reachable w.
Proof.
  intros Hrun. exists {| ttl := Num.of_Z 60; size := 2 |}, {| f_length := 1 |}, Scenario.example, evs.
  split; [reflexivity | exact Hrun].
Defined.

Lemma concurrent_calls_share_one_invocation_witness :
  let w1 := Scenario.after (Call (Scenario.num 5) 0 :: Scenario.three_callers) in
  let callers : list CallId := [0; 1; 3]%nat in
  invoked_for "[5]" w1 = [Scenario.num 5] /\
  (forall c, c ∈ callers -> outcomes c w1 = []) /\
  (forall result t, exists w2,
     step w1 (Fulfil 0%nat result t) = Some w2 /\
     invoked w2 = invoked w1 /\
     forall c, c ∈ callers -> outcomes c w2 = [Resolved result]) /\
  (forall err, exists w2,
     step w1 (Fail 0%nat err) = Some w2 /\
     invoked w2 = invoked w1 /\
     forall c, c ∈ callers -> outcomes c w2 = [Rejected (Thrown err)]).
Proof.
  apply (concurrent_calls_share_one_invocation
           (start Scenario.example) "[5]" (Scenario.num 5) 0 Scenario.three_callers).
  - apply (after_reachable []). reflexivity.
  - vm_compute. reflexivity.
  - vm_compute. reflexivity.
  - repeat constructor.
  - vm_compute. repeat split.
  - vm_compute. reflexivity.
Defined.

Lemma full_cache_evicts_first_key_witness :
  exists w',
    step (Scenario.after Scenario.full_and_same_key) (Fulfil 2%nat 4%nat 70001) = Some w' /\
    JsMap.get (cache (memo w')) "[2]" = Some {| value := 4%nat; expiry := TimeValue 130001 |} /\
    JsMap.get (cache (memo w')) "[1]" = None.
Proof.
  destruct (full_cache_evicts_first_key
              (Scenario.after Scenario.full_and_same_key) 2%nat "[2]" 4%nat 70001)
    as (w' & Hstep & Hnew & Hold & _).
  - apply (after_reachable Scenario.full_and_same_key). vm_compute. reflexivity.
  - vm_compute. reflexivity.
  - apply Z.leb_le. vm_compute. reflexivity.
  - exists w'. split; [exact Hstep|]. split; [exact Hnew|].
    apply Hold; [vm_compute; reflexivity|]. intros H. discriminate H.
Defined.

(** C2, refuted as stated. The cache of [example] holds its two entries, of
    [f(1)] and [f(2)], and the leader of [f(2)] stores: the key is in the
    cache already, and yet the entry of [f(1)] is evicted. *)
Lemma store_of_present_key_evicts_another :
  leader_key 2%nat (Scenario.after Scenario.full_and_same_key) = Some "[2]" /\
  Z.of_nat (cache_size (memo (Scenario.after Scenario.full_and_same_key)))
    = size (options (memo (Scenario.after Scenario.full_and_same_key))) /\
  JsMap.keys (cache (memo (Scenario.after Scenario.full_and_same_key))) = ["[1]"; "[2]"] /\
  exists w',
    step (Scenario.after Scenario.full_and_same_key) (Fulfil 2%nat 4%nat 70001) = Some w' /\
    JsMap.keys (cache (memo w')) = ["[2]"].
Proof.
  split_and!; [vm_compute; reflexivity..|].
  eexists. split; vm_compute; reflexivity.
Qed.

(** C4, refuted as stated. A negative [ttl] and a [size] of zero are
    accepted: construction returns a memoizer and does not throw. *)
Lemma bad_options_are_accepted :
  SFltb (ttl Scenario.bad_options) (Num.of_Z 0) = true /\
  size Scenario.bad_options <= 0 /\
  (exists m : Memoized nat,
     memoize_async (E:=string) Scenario.bad_options {| f_length := 1 |} = Normal _ m) /\
  ~ (exists reason,
       memoize_async (R:=nat) (E:=string) Scenario.bad_options {| f_length := 1 |}
       = Throw _ reason).
Proof.
  split_and!; [reflexivity | discriminate | eexists; reflexivity |].
  intros [reason H]. discriminate H.
Qed.

Lemma cache_bounded_and_fifo_witness :
  Z.of_nat (cache_size (memo (Scenario.after Scenario.full_and_new_key))) <= 2 /\
  exists w',
    step (Scenario.after Scenario.full_and_new_key) (Fulfil 2%nat 6%nat 0) = Some w' /\
    JsMap.keys (cache (memo (Scenario.after Scenario.full_and_new_key))) = ["[1]"; "[2]"] /\
    JsMap.keys (cache (memo w')) = ["[2]"; "[3]"].
Proof.
  destruct (cache_bounded_and_fifo (E:=string) {| ttl := Num.of_Z 60; size := 2 |} {| f_length := 1 |}
              Scenario.example Scenario.full_and_new_key
              (Scenario.after Scenario.full_and_new_key))
    as (Hbound & Hevict & _).
  - simpl. lia.
  - reflexivity.
  - vm_compute. reflexivity.
  - split; [exact Hbound|].
    destruct (Hevict 2%nat "[3]" 6%nat 0) as (w' & oldestKey & entry & rest & Hs & Hc & Hc').
    + vm_compute. reflexivity.
    + vm_compute. reflexivity.
    + vm_compute. reflexivity.
    + exists w'. split; [exact Hs|]. split; [vm_compute; reflexivity|].
      rewrite Hc'. vm_compute in Hc. injection Hc as _ _ <-. vm_compute. reflexivity.
Defined.

Lemma failure_is_not_cached_witness :
  exists w1,
    step (Scenario.after Scenario.leading) (Fail 0%nat "boom") = Some w1 /\
    cache (memo w1) = cache (memo (Scenario.after Scenario.leading)) /\
    queue (memo w1) !! "[1]" = None /\
    exists w3,
      step w1 (Call (Scenario.num 1) 5) = Some w3 /\
      invoked w3 = (invoked w1 ++ [Scenario.num 1])%list /\
      leader_key (calls w1) w3 = Some "[1]".
Proof.
  destruct (failure_is_not_cached (Scenario.after Scenario.leading) 0%nat "[1]" "boom")
    as (w1 & Hstep & Hcache & Hqueue & _ & _ & Hnext).
  - apply (after_reachable Scenario.leading). vm_compute. reflexivity.
  - vm_compute. reflexivity.
  - exists w1. split; [exact Hstep|]. split; [exact Hcache|]. split; [exact Hqueue|].
    destruct (Hnext [] w1 (Scenario.num 1) 5) as (w3 & Hs3 & Hi3 & _ & Hl3).
    + constructor.
    + reflexivity.
    + vm_compute. reflexivity.
    + vm_compute. reflexivity.
    + apply Z.leb_le. vm_compute. reflexivity.
    + exists w3. split; [exact Hs3|]. split; [exact Hi3 | exact Hl3].
Defined.

Lemma invalid_arity_rejected_witness :
  exists w',
    step (start (E:=string) Scenario.example) (Call [] 0) = Some w' /\
    settled w' = [(0%nat, Rejected (InvalidArity 0 1))] /\
    invoked w' = [] /\
    memo w' = Scenario.example.
Proof.
  destruct (invalid_arity_rejected (start (E:=string) Scenario.example) [] 0)
    as (w' & Hstep & Hsettled & Hinvoked & Hmemo & _).
  - simpl. lia.
  - exists w'. split; [exact Hstep|]. split; [exact Hsettled|].
    split; [exact Hinvoked | exact Hmemo].
Defined.


Lemma clear_cache_keeps_in_flight_witness :
  exists w',
    step (Scenario.after Scenario.joined) ClearCache = Some w' /\
    cache_size (memo w') = 0%nat /\
    queue (memo w') = queue (memo (Scenario.after Scenario.joined)) /\
    (exists w2,
       step w' (Fulfil 0%nat 2%nat 9) = Some w2 /\
       settled w2 = [(1%nat, Resolved 2%nat); (2%nat, Resolved 2%nat);
                     (0%nat, Resolved 2%nat)]) /\
    (exists w2,
       step w' (Fail 0%nat "boom") = Some w2 /\
       settled w2 = [(1%nat, Rejected (Thrown "boom")); (2%nat, Rejected (Thrown "boom"));
                     (0%nat, Rejected (Thrown "boom"))]).
Proof.
  destruct (clear_cache_keeps_in_flight (Scenario.after Scenario.joined))
    as (w' & Hstep & Hsize & Hqueue & _ & _ & _ & Hflight).
  destruct (Hflight 0%nat "[1]" [1; 2]%nat) as [Hok Herr].
  - vm_compute. reflexivity.
  - vm_compute. reflexivity.
  - exists w'. split; [exact Hstep|]. split; [exact Hsize|]. split; [exact Hqueue|].
    split; [apply (Hok 2%nat 9) | apply (Herr "boom")].
Defined.


(** C8, where the code departs from it. The expiry of an entry is not the
    time of the store plus [ttl] seconds: lines 79-80 set the seconds field
    of the local time, and [setSeconds] drops the fraction of its argument.
    - On a host in New York, with [ttl = 60]: the result of [f(1)] is stored
      on 1 November 2026 at 05:59:30 UTC, half a minute before the clocks go
      back. Its expiry is 07:00:30 UTC, an hour and a minute later, and the
      call of [f(1)] at 06:30:00 UTC, half an hour after the store, is
      answered from the cache: [f] is not invoked again.
    - With [ttl = 0.5], on a host in UTC: the result stored at time value
      1000 expires at 1000, and the call of [f(1)] one millisecond later
      invokes [f] again. *)
Theorem expiry_is_not_store_time_plus_ttl :
  (exists w,
     run (host := Scenario.new_york) (start (E:=string) Scenario.example)
       [Call (Scenario.num 1) 1793512770000; Fulfil 0%nat 2%nat 1793512770000;
        Call (Scenario.num 1) 1793514600000] = Some w /\
     JsMap.get (cache (memo w)) "[1]"
       = Some {| value := 2%nat; expiry := TimeValue 1793516430000 |} /\
     invoked w = [Scenario.num 1] /\
     settled w = [(0%nat, Resolved 2%nat); (1%nat, Resolved 2%nat)]) /\
  (exists w,
     run (host := Scenario.utc) (start (E:=string) Scenario.half_second)
       [Call (Scenario.num 1) 1000; Fulfil 0%nat 2%nat 1000;
        Call (Scenario.num 1) 1001] = Some w /\
     JsMap.get (cache (memo w)) "[1]"
       = Some {| value := 2%nat; expiry := TimeValue 1000 |} /\
     invoked w = [Scenario.num 1; Scenario.num 1] /\
     settled w = [(0%nat, Resolved 2%nat)]).
Proof. split; eexists; split_and!; vm_compute; reflexivity. Qed.

(** The collision of C3 in a run: [f(undefined)] is called and fulfils with
    2; the call of [f(NaN)] that follows is answered 2 from the cache, and
    [f] is never invoked with [NaN]. *)
Example nan_is_answered_for_undefined :
  exists w,
    run (start (E:=string) Scenario.example)
      [Call [VUndefined] 0; Fulfil 0%nat 2%nat 1; Call [VNumber NaN] 2] = Some w /\
    invoked w = [[VUndefined]] /\
    settled w = [(0%nat, Resolved 2%nat); (1%nat, Resolved 2%nat)].
Proof. eexists. split_and!; vm_compute; reflexivity. Qed.

(** The scenario of the specification: [ttl = 60], [size = 2], and calls of
    [f(1)], [f(1)], [f(2)], [f(3)], [f(1)], each settled before the next. *)
Example scenario_of_the_specification :
  exists w,
    run (start (E:=string) Scenario.example)
      [Call (Scenario.num 1) 0; Fulfil 0%nat 2%nat 0; Call (Scenario.num 1) 1;
       Call (Scenario.num 2) 2; Fulfil 2%nat 4%nat 2;
       Call (Scenario.num 3) 3; Fulfil 3%nat 6%nat 3; Call (Scenario.num 1) 4] = Some w /\
    invoked w = [Scenario.num 1; Scenario.num 2; Scenario.num 3; Scenario.num 1] /\
    JsMap.keys (cache (memo w)) = ["[2]"; "[3]"] /\
    cache_size (memo w) = 2%nat.
Proof. eexists. split_and!; vm_compute; reflexivity. Qed.


Lemma one_flight_per_key_witness :
  let w := Scenario.after Scenario.three_callers in
  NoDup (snd <$> leaders w) /\
  (forall key, is_Some (queue (memo w) !! key) <-> key ∈ (snd <$> leaders w)) /\
  (forall c c' key, leader_key c w = Some key -> leader_key c' w = Some key -> c = c').
Proof.
  apply (one_flight_per_key (Scenario.after Scenario.three_callers)).
  apply (after_reachable Scenario.three_callers). vm_compute. reflexivity.
Defined.

Lemma every_call_settles_once_witness :
  let w := Scenario.after Scenario.joined in
  (forall c, (List.length (outcomes c w) <= 1)%nat) /\
  (forall c, (c < calls w)%nat -> outcomes c w = [] ->
     (exists key, leader_key c w = Some key) \/
     (exists key handlers leader,
        queue (memo w) !! key = Some handlers /\ c ∈ handlers /\
        leader_key leader w = Some key)) /\
  (forall c, c ∈ pending w -> outcomes c w = [] /\ (c < calls w)%nat).
Proof.
  apply (every_call_settles_once (Scenario.after Scenario.joined)).
  apply (after_reachable Scenario.joined). vm_compute. reflexivity.
Defined.

Lemma call_during_flight_waits_witness :
  let w := Scenario.after Scenario.joined in
  cached (memo w) "[1]" 5 = None /\
  exists w',
    step w (Call (Scenario.num 1) 5) = Some w' /\
    queue (memo w') !! "[1]" = Some [1; 2; 3]%nat /\
    invoked w' = invoked w /\
    settled w' = settled w /\
    leaders w' = leaders w /\
    cache (memo w') = cache (memo w).
Proof.
  apply (call_during_flight_waits (Scenario.after Scenario.joined) "[1]" [1; 2]%nat
           (Scenario.num 1) 5).
  - apply (after_reachable Scenario.joined). vm_compute. reflexivity.
  - vm_compute. reflexivity.
  - vm_compute. reflexivity.
  - vm_compute. reflexivity.
  - vm_compute. discriminate.
Defined.

Lemma nonpositive_size_keeps_last_result_witness :
  exists w,
    run (start (E:=string) Scenario.no_room)
      [Call (Scenario.num 1) 0; Fulfil 0%nat 2%nat 0; Call (Scenario.num 2) 1] = Some w /\
    (cache_size (memo w) <= 1)%nat /\
    exists w',
      step w (Fulfil 1%nat 4%nat 2) = Some w' /\
      cache (memo w') = [("[2]", {| value := 4%nat; expiry := TimeValue 60002 |})].
Proof.
  eexists. split; [vm_compute; reflexivity|].
  match goal with
  | |- (cache_size (memo ?w) <= 1)%nat /\ _ =>
      destruct (nonpositive_size_keeps_last_result (E:=string)
                  (options Scenario.no_room) (f Scenario.no_room) Scenario.no_room
                  [Call (Scenario.num 1) 0; Fulfil 0%nat 2%nat 0; Call (Scenario.num 2) 1] w)
        as [Hsize Hstore]
  end.
  - vm_compute. discriminate.
  - reflexivity.
  - vm_compute. reflexivity.
  - split; [exact Hsize|].
    destruct (Hstore 1%nat "[2]" 4%nat 2) as (w' & Hstep & Hcache).
    + vm_compute. reflexivity.
    + exists w'. split; [exact Hstep|]. rewrite Hcache. vm_compute. reflexivity.
Defined.

Lemma invalid_expiry_is_never_served_witness :
  exists w,
    run (start (E:=string) Scenario.for_ever)
      [Call (Scenario.num 1) 0; Fulfil 0%nat 2%nat 0] = Some w /\
    JsMap.get (cache (memo w)) "[1]" = Some {| value := 2%nat; expiry := InvalidDate |} /\
    cached (memo w) "[1]" 1 = None /\
    exists w',
      step w (Call (Scenario.num 1) 1) = Some w' /\
      invoked w' = [Scenario.num 1; Scenario.num 1].
Proof.
  eexists. split; [vm_compute; reflexivity|].
  match goal with
  | |- JsMap.get (cache (memo ?w)) _ = _ /\ _ =>
      destruct (invalid_expiry_is_never_served (E:=string)
                  (options Scenario.for_ever) (f Scenario.for_ever) Scenario.for_ever
                  [Call (Scenario.num 1) 0; Fulfil 0%nat 2%nat 0] w (Scenario.num 1) 1)
        as (Hinv & Hmiss & w' & Hstep & _ & Hlead & _)
  end.
  - reflexivity.
  - reflexivity.
  - vm_compute. reflexivity.
  - reflexivity.
  - split; [vm_compute; reflexivity|]. split; [exact Hmiss|].
    exists w'. split; [exact Hstep|]. rewrite Hlead; [reflexivity|].
    vm_compute. reflexivity.
Defined.

Lemma f_is_invoked_with_its_arity_witness :
  let w := Scenario.after Scenario.full_and_new_key in
  Forall (fun args => List.length args = f_length (f (memo w))) (invoked w) /\
  (List.length (invoked w) <= calls w)%nat.
Proof.
  apply (f_is_invoked_with_its_arity (Scenario.after Scenario.full_and_new_key)).
  apply (after_reachable Scenario.full_and_new_key). vm_compute. reflexivity.
Defined.

Lemma hits_leave_the_memoizer_alone_witness :
  let w := Scenario.after [Call (Scenario.num 1) 0; Fulfil 0%nat 2%nat 0] in
  exists w',
    run w [Call (Scenario.num 1) 10; Call (Scenario.num 1) 59999; Call (Scenario.num 1) 20]
      = Some w' /\
    memo w' = memo w /\
    invoked w' = invoked w /\
    leaders w' = leaders w /\
    settled w'
      = (settled w ++ [(1%nat, Resolved 2%nat); (2%nat, Resolved 2%nat);
                       (3%nat, Resolved 2%nat)])%list.
Proof.
  apply (hits_leave_the_memoizer_alone (Scenario.num 1) 2%nat [10; 59999; 20]
           (Scenario.after [Call (Scenario.num 1) 0; Fulfil 0%nat 2%nat 0])).
  - vm_compute. reflexivity.
  - repeat constructor.
Defined.


Lemma clear_cache_forces_invocation_witness :
  let w := Scenario.after [Call (Scenario.num 1) 0; Fulfil 0%nat 2%nat 0] in
  exists w',
    run w [ClearCache; Call (Scenario.num 1) 1] = Some w' /\
    invoked w' = (invoked w ++ [Scenario.num 1])%list /\
    settled w' = settled w /\
    leader_key (calls w) w' = Some "[1]".
Proof.
  apply (clear_cache_forces_invocation
           (Scenario.after [Call (Scenario.num 1) 0; Fulfil 0%nat 2%nat 0]) "[1]"
           (Scenario.num 1) 1).
  - apply (after_reachable [Call (Scenario.num 1) 0; Fulfil 0%nat 2%nat 0]).
    vm_compute. reflexivity.
  - vm_compute. reflexivity.
  - vm_compute. reflexivity.
  - vm_compute. reflexivity.
Defined.

Lemma whole_ttl_on_fixed_offset_witness :
  JsMap.get (cache (store "[1]" 2%nat 1000 Scenario.example)) "[1]"
    = Some {| value := 2%nat; expiry := TimeValue (1000 + 1000 * 60) |} /\
  forall t,
    cached (store "[1]" 2%nat 1000 Scenario.example) "[1]" t
    = if t <? 1000 + 1000 * 60 then Some 2%nat else None.
Proof.
  apply (whole_ttl_on_fixed_offset 0 Scenario.example "[1]" 2%nat 1000 60).
  - reflexivity.
  - vm_compute. discriminate.
  - vm_compute. discriminate.
  - vm_compute. discriminate.
  - vm_compute. discriminate.
  - reflexivity.
Defined.

Lemma answers_come_from_f_witness :
  let evs : list (Event nat string) :=
    [Call (Scenario.num 1) 0; Call (Scenario.num 1) 1; Fulfil 0%nat 2%nat 2;
     Call (Scenario.num 1) 3; Call [] 4; Call (Scenario.num 2) 5; Fail 4%nat "boom"] in
  let w := Scenario.after evs in
  (forall c result, (c, Resolved result) ∈ settled w -> result ∈ fulfilled evs) /\
  (forall c err, (c, Rejected (Thrown err)) ∈ settled w -> err ∈ failed evs) /\
  (forall c message, (c, Rejected (Error message)) ∈ settled w ->
     exists given, given <> 1%nat /\ message = arity_message given 1) /\
  (forall key entry,
     JsMap.get (cache (memo w)) key = Some entry -> value entry ∈ fulfilled evs).
Proof.
  intros evs w.
  apply (answers_come_from_f (options Scenario.example) (f Scenario.example)
           Scenario.example evs w).
  - reflexivity.
  - vm_compute. reflexivity.
Defined.
